(** * A shallow embedding of the [log] package (logger registry, writers,
      devices) and the properties of its dispatch engine.

    Conventions of the embedding.
    - Go's [int] is modelled by [Z]: levels and indices are only compared,
      never computed with, so no wrap-around is involved; [uint32] values
      carry their reduction modulo 2^32 explicitly.
    - Go strings are [string] (sequences of bytes); [[]byte] is
      [list Byte.byte].
    - Pointers ([*Logger], the device objects behind the [Device]
      interface) are addresses into two heaps kept in the [World]; the
      package variable [loggerMap] is a [gmap] from names to addresses.
    - Side effects are threaded through a state monad with panics; calls to
      the operating system, to [fmt.Printf] and to [bufio] are recorded in
      a trace, and their results are read from an environment [Env]; the
      instant read from the clock is an argument.
    - Goroutines and locks are not modelled: every function runs to its
      end before the next one starts. *)

From Stdlib Require Import ZArith Lia Ascii String DecimalString.
From Stdlib Require DecimalPos DecimalZ.
From stdpp Require Import base option list strings gmap.

Local Open Scope Z_scope.

(** ** Severity levels (the [const] block) *)

Definition DEBUG : Z := 0.
Definition INFO : Z := 1.
Definition WARN : Z := 2.
Definition ERROR : Z := 3.
Definition DISABLE : Z := 4.
Definition FATAL : Z := 5.

(** ** Library functions on strings *)

Definition bytes := list Byte.byte.

(** [strings.ToLower] on its ASCII path: the letters 'A'..'Z' are moved to
    'a'..'z', every other byte is kept.  (Go lower-cases runes outside
    ASCII with the Unicode tables; those are left as they are here.) *)
Definition lower_ascii (c : ascii) : ascii :=
  let n := nat_of_ascii c in
  if ((65 <=? n) && (n <=? 90))%nat then ascii_of_nat (n + 32) else c.

Fixpoint ToLower (s : string) : string :=
  match s with
  | EmptyString => EmptyString
  | String c s' => String (lower_ascii c) (ToLower s')
  end.

(** [strings.SplitN(define, ":", 2)]: the text before the first colon and,
    when there is a colon, the text after it ([len(items) == 2]). *)
Fixpoint SplitN2 (s : string) : string * option string :=
  match s with
  | EmptyString => (EmptyString, None)
  | String c s' =>
      if Ascii.eqb c ":" then (EmptyString, Some s')
      else let '(hd, tl) := SplitN2 s' in (String c hd, tl)
  end.

(** The verb [%v] applied to an integer: its decimal notation. *)
Definition itoa (z : Z) : string := NilZero.string_of_int (Z.to_int z).

(** ** Wall-clock time, as far as [updateNow] reads it *)

Record Time := mkTime {
  Year : Z; Month : Z; Day : Z; Hour : Z; Minute : Z; Second : Z
}.

Definition uint32 (z : Z) : Z := z mod 2 ^ 32.

(** ** Data model *)

(** What [Formatter.Format] can observe besides its arguments: the clock
    and the call site found by [runtime.Caller]. *)
Record Ambient := mkAmbient {
  now : Time;
  caller : option (string * Z)
}.

(** The [Formatter] interface: one method. *)
Record Formatter := mkFormatter {
  Format : Ambient -> Z -> string -> bytes
}.

(** [type Writer struct { level int; device Device }]; the interface value
    holds a pointer to the device object. *)
Record Writer := mkWriter {
  level : Z;
  device : nat
}.

Record Logger := mkLogger {
  minLevel : Z;
  format : Formatter;
  writers : list Writer
}.

(** What a [bufio.Writer] was created over. *)
Inductive Target :=
| ToStdout
| ToFile (filename : string).

(** [FileDevice]: [file] is the open handle (named by the path it was
    opened with), [writer] the [bufio.Writer] wrapped around a handle;
    [None] is Go's [nil]. The mutex is not modelled. *)
Record FileDevice := mkFileDevice {
  file : option string;
  writer : option Target;
  prefix : string;
  lastdate : Z
}.

(** The three implementations of [Device]. A [bufio.Writer] is named by
    what it writes to; [StdoutDevice] holds one over standard output. *)
Inductive DeviceObj :=
| File (f : FileDevice)
| Console
| Stdout.

Inductive LoggerDefine := mkDefine (Name Level Writer_ : string).

(** ** Traces *)

(** Calls that [Logger] code makes on its collaborators. *)
Inductive Call :=
| CFormat (lvl : Z) (msg : string)
| CDeviceWrite (d : nat) (b : bytes)
| CDeviceFlush (d : nat)
| CBuffsPut.

(** Calls that reach the operating system or a library buffer. *)
Inductive OsCall :=
| Printf (s : string)
| StdoutWrite (b : bytes)
| BufWrite (t : Target) (b : bytes)
| BufFlush (t : Target)
| OsStat (dir : string)
| OsMkdirAll (dir : string)
| OsOpenFile (filename : string)
| OsClose (filename : string).

(** ** The environment: library functions and the outcome of system calls *)

Record Env := mkEnv {
  Any : Type;
  Sprintf : string -> list Any -> string;
  path_Dir : string -> string;
  DefaultFormatter : Formatter;
  stat_IsNotExist : string -> bool;
  OpenFile_err : string -> option string;
  Close_err : string -> option string;
  Write_err : Target -> bytes -> option string
}.

(** ** The world: package variables, heaps and traces *)

Record World := mkWorld {
  loggerMap : gmap string nat;
  loggers : list Logger;
  devices : list DeviceObj;
  lastTime : Z;
  lastDate : Z;
  calls : list Call;
  os : list OsCall
}.

(** The package variables as declared: an empty [loggerMap], zero clocks. *)
Definition world0 : World := mkWorld ∅ [] [] 0 0 [] [].

Definition set_loggerMap (m : gmap string nat) (w : World) : World :=
  mkWorld m (loggers w) (devices w) (lastTime w) (lastDate w) (calls w) (os w).
Definition set_loggers (h : list Logger) (w : World) : World :=
  mkWorld (loggerMap w) h (devices w) (lastTime w) (lastDate w) (calls w) (os w).
Definition set_devices (h : list DeviceObj) (w : World) : World :=
  mkWorld (loggerMap w) (loggers w) h (lastTime w) (lastDate w) (calls w) (os w).
Definition set_clock (tm dt : Z) (w : World) : World :=
  mkWorld (loggerMap w) (loggers w) (devices w) tm dt (calls w) (os w).
Definition add_call (c : Call) (w : World) : World :=
  mkWorld (loggerMap w) (loggers w) (devices w) (lastTime w) (lastDate w)
          (calls w ++ [c]) (os w).
Definition add_os (tr : list OsCall) (w : World) : World :=
  mkWorld (loggerMap w) (loggers w) (devices w) (lastTime w) (lastDate w)
          (calls w) (os w ++ tr).

(** ** The monad: state and run-time panics *)

Inductive PanicKind :=
| IndexOutOfRange (i len : Z)
| NilFunctionCall
| NilDereference.

Inductive Res (A : Type) :=
| Ok (a : A) (w : World)
| Panic (p : PanicKind) (w : World).
Arguments Ok {A} a w.
Arguments Panic {A} p w.

Definition M (A : Type) : Type := World -> Res A.

#[global] Instance M_ret : MRet M := fun A a w => Ok a w.
#[global] Instance M_bind : MBind M := fun A B f m w =>
  match m w with
  | Ok a w' => f a w'
  | Panic p w' => Panic p w'
  end.

Definition panic {A} (p : PanicKind) : M A := fun w => Panic p w.
Definition get : M World := fun w => Ok w w.
Definition modify (f : World -> World) : M unit := fun w => Ok tt (f w).
Definition printf (s : string) : M unit := modify (add_os [Printf s]).

(** [for _, x := range xs { body x }] *)
Fixpoint forRange {A} (xs : list A) (body : A -> M unit) : M unit :=
  match xs with
  | [] => mret tt
  | x :: xs' => body x ;; forRange xs' body
  end.

(** ** [getLevelFromStr] *)

Definition getLevelFromStr (lvl : string) : M Z :=
  let s := ToLower lvl in
  if String.eqb s "d" then mret DEBUG
  else if String.eqb s "i" then mret INFO
  else if String.eqb s "w" then mret WARN
  else if String.eqb s "e" then mret ERROR
  else if String.eqb s "debug" then mret DEBUG
  else if String.eqb s "info" then mret INFO
  else if String.eqb s "warn" then mret WARN
  else if String.eqb s "warning" then mret WARN
  else if String.eqb s "err" then mret ERROR
  else if String.eqb s "error" then mret ERROR
  else if String.eqb s "disable" then mret DISABLE
  else printf ("ERROR: logger level unknown: " +:+ lvl +:+ "
") ;; mret INFO.


(** ** Devices (device.go) *)

Section Devices.
Variable E : Env.

Definition createFileDevice (args : string) : DeviceObj :=
  File (mkFileDevice None None args 0).
Definition createStdoutDevice (args : string) : DeviceObj := Stdout.
Definition createConsoleDevice (args : string) : DeviceObj := Console.

Definition deviceMap : gmap string (string -> DeviceObj) :=
  list_to_map [("file", createFileDevice);
               ("stdout", createStdoutDevice);
               ("console", createConsoleDevice)].

(** [NewDevice]: calling the [nil] function found for an unknown kind
    panics. The new object's address is the next free cell of the heap. *)
Definition NewDevice (define : string) : M nat :=
  let '(name, rest) := SplitN2 define in
  let args := default "" rest in
  match deviceMap !! name with
  | Some create =>
      fun w => Ok (length (devices w)) (set_devices (devices w ++ [create args]) w)
  | None => panic NilFunctionCall
  end.

Definition set_file (h : option string) (f : FileDevice) : FileDevice :=
  mkFileDevice h (writer f) (prefix f) (lastdate f).

(** [file.writer.Write(p)] and the report of its error: the end of
    [FileDevice.Write]. A method call on a [nil] [*bufio.Writer] panics. *)
Definition FileDevice_Write_tail (f : FileDevice) (p : bytes)
    : option (list OsCall) :=
  t ← writer f;
  Some ([BufWrite t p] ++
        match Write_err E t p with
        | Some e => [Printf ("ERROR: logger cannot write file: " +:+ e +:+ "
")]
        | None => []
        end).

(** [FileDevice.Write], given the value [date] loaded from [lastDate]:
    the device afterwards and the calls made; [None] is a panic. *)
Definition FileDevice_Write (date : Z) (f : FileDevice) (p : bytes)
    : option (FileDevice * list OsCall) :=
  '(f1, tr1) ←
    (if decide (lastdate f ≠ date) then
       match file f with
       | Some h =>
           t ← writer f;
           Some (set_file None f,
                 [BufFlush t; OsClose h] ++
                 match Close_err E h with
                 | Some e => [Printf ("ERROR: logger cannot close file: " +:+ e +:+ "
")]
                 | None => []
                 end)
       | None => Some (f, [])
       end
     else Some (f, []));
  match file f1 with
  | None =>
      let filename := prefix f1 +:+ "-" +:+ itoa date +:+ ".log" in
      let dir := path_Dir E filename in
      let tr2 := tr1 ++ [OsStat dir] ++
                 (if stat_IsNotExist E dir then [OsMkdirAll dir] else []) ++
                 [OsOpenFile filename] in
      match OpenFile_err E filename with
      | Some e =>
          Some (f1, tr2 ++ [Printf ("ERROR: logger cannot open file: " +:+ e +:+ "
")])
      | None =>
          let f2 := mkFileDevice (Some filename) (Some (ToFile filename))
                                 (prefix f1) date in
          tr3 ← FileDevice_Write_tail f2 p;
          Some (f2, tr2 ++ tr3)
      end
  | Some _ =>
      tr3 ← FileDevice_Write_tail f1 p;
      Some (f1, tr1 ++ tr3)
  end.

Definition FileDevice_Flush (f : FileDevice) : list OsCall :=
  match writer f with
  | Some t => [BufFlush t]
  | None => []
  end.

(** Dispatch of [Device.Write] and [Device.Flush] on the object's type. *)
Definition DeviceObj_Write (date : Z) (dev : DeviceObj) (p : bytes)
    : option (DeviceObj * list OsCall) :=
  match dev with
  | File f => '(f', tr) ← FileDevice_Write date f p; Some (File f', tr)
  | Console => Some (Console, [StdoutWrite p])
  | Stdout => Some (Stdout, [BufWrite ToStdout p])
  end.

Definition DeviceObj_Flush (dev : DeviceObj) : list OsCall :=
  match dev with
  | File f => FileDevice_Flush f
  | Console => []
  | Stdout => [BufFlush ToStdout]
  end.

(** The same through a pointer into the heap of device objects. *)
Definition Device_Write (d : nat) (p : bytes) : M unit := fun w =>
  match devices w !! d with
  | Some dev =>
      match DeviceObj_Write (lastDate w) dev p with
      | Some (dev', tr) =>
          Ok tt (set_devices (<[d := dev']> (devices w)) (add_os tr w))
      | None => Panic NilDereference w
      end
  | None => Panic NilDereference w
  end.

Definition Device_Flush (d : nat) : M unit := fun w =>
  match devices w !! d with
  | Some dev => Ok tt (add_os (DeviceObj_Flush dev) w)
  | None => Panic NilDereference w
  end.

End Devices.

(** ** Loggers and the registry *)

Inductive Error := ErrNameNotFound | ErrIndexOutOfBound.

Definition set_minLevel (m : Z) (log : Logger) : Logger :=
  mkLogger m (format log) (writers log).
Definition set_writers (ws : list Writer) (log : Logger) : Logger :=
  mkLogger (minLevel log) (format log) ws.
Definition set_level (lv : Z) (wr : Writer) : Writer :=
  mkWriter lv (device wr).

(** [Logger.UpdateLevel], as the change it makes to the struct. *)
Definition UpdateLevel (log : Logger) : Logger :=
  fold_left
    (fun lg wr => if level wr <? minLevel lg then set_minLevel (level wr) lg else lg)
    (writers log) (set_minLevel DISABLE log).

(** Reading and writing a [Logger] through its pointer. *)
Definition load_logger (l : nat) : M Logger := fun w =>
  match loggers w !! l with
  | Some log => Ok log w
  | None => Panic NilDereference w
  end.
Definition store_logger (l : nat) (log : Logger) : M unit :=
  modify (fun w => set_loggers (<[l := log]> (loggers w)) w).

Definition UpdateLevelAt (l : nat) : M unit :=
  log ← load_logger l; store_logger l (UpdateLevel log).

(** [updateNow], at the instant [t] returned by [time.Now()]. Go's [%] is
    the remainder of the truncated division, [Z.rem]. *)
Definition updateNow (t : Time) : M unit :=
  let dt := uint32 (Z.rem (Year t) 100 * 10000 + Month t * 100 + Day t) in
  let tm := uint32 (Hour t * 10000 + Minute t * 100 + Second t) in
  modify (set_clock tm dt).

(** [GetLogger]; [None] is the [nil] pointer a map yields for a missing key. *)
Definition GetLogger (name : string) (w : World) : option nat :=
  match loggerMap w !! name with
  | Some logger => Some logger
  | None => loggerMap w !! "default"
  end.

Section Loggers.
Variable E : Env.

Definition NewWriter (lv : Z) (dev : string) : M Writer :=
  d ← NewDevice dev; mret (mkWriter lv d).

(** [NewLogger]: the struct is filled in, its level computed, and its
    address returned (a fresh cell of the heap of loggers). *)
Definition NewLogger (fmt : Formatter) (ws : list Writer) : M nat :=
  let logger := UpdateLevel (mkLogger 0 fmt ws) in
  fun w => Ok (length (loggers w)) (set_loggers (loggers w ++ [logger]) w).

(** The body of the loop of [Init] for one definition. *)
Definition Init_define (def : LoggerDefine) : M unit :=
  let '(mkDefine name lvl wr) := def in
  let name := ToLower name in
  let wr := ToLower wr in
  w ← get;
  match loggerMap w !! name with
  | None =>
      lv ← getLevelFromStr lvl;
      wtr ← NewWriter lv wr;
      log ← NewLogger (DefaultFormatter E) [wtr];
      modify (fun w => set_loggerMap (<[name := log]> (loggerMap w)) w) ;;
      UpdateLevelAt log
  | Some log =>
      lv ← getLevelFromStr lvl;
      wtr ← NewWriter lv wr;
      lg ← load_logger log;
      store_logger log (set_writers (writers lg ++ [wtr]) lg) ;;
      UpdateLevelAt log
  end.

(** [Init]. The handshake that stops the background worker before the loop
    and the goroutine started at the end are outside this sequential
    model. *)
Definition Init (config : list LoggerDefine) : M unit :=
  forRange config Init_define ;;
  w ← get;
  match loggerMap w !! "default" with
  | Some _ => mret tt
  | None =>
      wtr ← NewWriter DEBUG "console";
      log ← NewLogger (DefaultFormatter E) [wtr];
      modify (fun w => set_loggerMap (<["default" := log]> (loggerMap w)) w)
  end.

(** [SetLevel]. In the loop for [index == -1] the variable [writer] is a
    copy of the element, as [range] over a slice of structs makes it: the
    assignment changes the copy. An index below [-1] reaches the indexing
    expression, which panics. *)
Definition SetLevel (name : string) (index : Z) (lvl : string) : M (option Error) :=
  w ← get;
  match loggerMap w !! name with
  | None =>
      printf ("ERROR: log name not found: " +:+ name +:+ "
") ;;
      mret (Some ErrNameNotFound)
  | Some l =>
      log ← load_logger l;
      let len := Z.of_nat (length (writers log)) in
      if index >=? len then
        printf ("ERROR: log index exceed: " +:+ itoa len +:+ ", " +:+ itoa index +:+ "
") ;;
        mret (Some ErrIndexOutOfBound)
      else
        newlevel ← getLevelFromStr lvl;
        (if index =? -1 then
           forRange (writers log) (fun writer =>
             let writer := set_level newlevel writer in mret tt)
         else if 0 <=? index then
           store_logger l
             (set_writers (alter (set_level newlevel) (Z.to_nat index) (writers log)) log)
         else panic (IndexOutOfRange index len)) ;;
        UpdateLevelAt l ;;
        mret None
  end.

Definition call (c : Call) : M unit := modify (add_call c).

(** [Logger.Flush] *)
Definition Flush (l : nat) : M unit :=
  log ← load_logger l;
  forRange (writers log) (fun writer =>
    call (CDeviceFlush (device writer)) ;; Device_Flush (device writer)).

(** [Logger.Write], under the ambient conditions [amb] that the formatter
    observes. *)
Definition Write (amb : Ambient) (l : nat) (lv : Z) (fmt : string)
    (a : list (Any E)) : M unit :=
  log ← load_logger l;
  if lv <? minLevel log then mret tt
  else
    let msg := match a with [] => fmt | _ => Sprintf E fmt a end in
    call (CFormat lv msg) ;;
    let b := Format (format log) amb lv msg in
    forRange (writers log) (fun writer =>
      if lv >=? level writer then
        call (CDeviceWrite (device writer) b) ;; Device_Write E (device writer) b
      else mret tt) ;;
    call CBuffsPut.

End Loggers.

(** A concrete environment for examples: every system call succeeds. *)
Definition env0 : Env :=
  mkEnv string (fun f _ => f) (fun p => p) (mkFormatter (fun _ _ _ => []))
        (fun _ => false) (fun _ => None) (fun _ => None) (fun _ _ => None).


(** ** The formatter and its buffers *)

(** [getLevelStr] and [getLevelStr2]: the letter and the word for a level;
    a level without a case is reported and shown as INFO. *)
Definition getLevelStr (lv : Z) : M ascii :=
  if lv =? DEBUG then mret "D"%char
  else if lv =? INFO then mret "I"%char
  else if lv =? WARN then mret "W"%char
  else if lv =? ERROR then mret "E"%char
  else if lv =? FATAL then mret "F"%char
  else printf ("ERROR: logger level unknown: " +:+ itoa lv +:+ "
") ;; mret "I"%char.

Definition getLevelStr2 (lv : Z) : M string :=
  if lv =? DEBUG then mret "DEBUG"
  else if lv =? INFO then mret "INFO"
  else if lv =? WARN then mret "WARN"
  else if lv =? ERROR then mret "ERROR"
  else if lv =? FATAL then mret "FATAL"
  else printf ("ERROR: logger level unknown: " +:+ itoa lv +:+ "
") ;; mret "INFO".

(** The pool [buffs], as the contents of the buffers at rest in it. [get]
    takes one of them or makes an empty one ([New]); [put] resets the
    buffer it is given and leaves it in the pool. *)
Definition buffPool_get (pool : list string) : string * list string :=
  match pool with
  | buf :: rest => (buf, rest)
  | [] => (EmptyString, [])
  end.

Definition Buffer_Reset (buf : string) : string := EmptyString.

Definition buffPool_put (buf : string) (pool : list string) : list string :=
  Buffer_Reset buf :: pool.

(** The loop of [Format] that looks for the last slash of the caller's
    file name, from the index [len(file) - 2] down: [caller_scan file n]
    is the value of [i] when the loop is left, having [n] indices
    [n-1, ..., 0] still to visit. *)
Fixpoint caller_scan (file : string) (n : nat) : Z :=
  match n with
  | O => -1
  | S i =>
      match String.get i file with
      | Some c => if Ascii.eqb c "/" then Z.of_nat i + 1 else caller_scan file i
      | None => caller_scan file i
      end
  end.

Definition caller_index (file : string) : Z :=
  match String.length file with
  | O => -2
  | S n => caller_scan file n
  end.

(** [DefaultFormatter.Format]. [dateTimeStr] is the text that
    [t.Format("2006-01-02 15:04:05.000")] gives for the current time,
    [caller] what [runtime.Caller(3)] found; the slice expression
    [file[i:]] panics for a negative [i]. The result is the buffer handed
    back, with the pool it was taken from. *)
Definition DefaultFormatter_Format (dateTimeStr : string)
    (caller : option (string * Z)) (pool : list string) (lv : Z) (msg : string)
    : M (string * list string) :=
  let '(buff, pool) := buffPool_get pool in
  let buff := buff +:+ dateTimeStr in
  let buff := buff +:+ " " in
  name ← getLevelStr2 lv;
  let buff := buff +:+ name in
  buff ← match caller with
         | Some (file, line) =>
             let buff := buff +:+ " " in
             let i := caller_index file in
             if i <? 0 then
               panic (IndexOutOfRange i (Z.of_nat (String.length file)))
             else
               let buff := buff +:+ String.substring (Z.to_nat i)
                             (String.length file - Z.to_nat i) file in
               let buff := buff +:+ ":" in
               mret (buff +:+ itoa line)
         | None => mret buff
         end;
  let buff := buff +:+ "] " in
  let buff := buff +:+ msg in
  mret (buff +:+ "
", pool).

(** ** The calls named after the levels *)

(** What follows a call that may end the process with [os.Exit]. *)
Inductive Exit (A : Type) :=
| Returned (r : Res A)
| Exited (code : Z) (w : World).
Arguments Returned {A} r.
Arguments Exited {A} code w.

Section Levels.
Variable E : Env.

(** A method called through [loggerMap["default"]]: the map gives [nil]
    for a missing key, and [Write] on a [nil] logger panics. *)
Definition default_logger : M nat := fun w =>
  match loggerMap w !! "default" with
  | Some l => Ok l w
  | None => Panic NilDereference w
  end.

Definition Debug (amb : Ambient) (fmt : string) (a : list (Any E)) : M unit :=
  l ← default_logger; Write E amb l DEBUG fmt a.
Definition Info (amb : Ambient) (fmt : string) (a : list (Any E)) : M unit :=
  l ← default_logger; Write E amb l INFO fmt a.
Definition Warn (amb : Ambient) (fmt : string) (a : list (Any E)) : M unit :=
  l ← default_logger; Write E amb l WARN fmt a.
Definition Error_ (amb : Ambient) (fmt : string) (a : list (Any E)) : M unit :=
  l ← default_logger; Write E amb l ERROR fmt a.

(** [Fatal]: the write, then [os.Exit(1)]; a panic of the write comes
    before the exit. *)
Definition Fatal (amb : Ambient) (fmt : string) (a : list (Any E)) : World -> Exit unit :=
  fun w =>
    match (l ← default_logger; Write E amb l FATAL fmt a) w with
    | Ok _ w' => Exited 1 w'
    | Panic p w' => Returned (Panic p w')
    end.

Definition Logger_Debug (amb : Ambient) (l : nat) (fmt : string) (a : list (Any E)) : M unit :=
  Write E amb l DEBUG fmt a.
Definition Logger_Info (amb : Ambient) (l : nat) (fmt : string) (a : list (Any E)) : M unit :=
  Write E amb l INFO fmt a.
Definition Logger_Warn (amb : Ambient) (l : nat) (fmt : string) (a : list (Any E)) : M unit :=
  Write E amb l WARN fmt a.
Definition Logger_Error (amb : Ambient) (l : nat) (fmt : string) (a : list (Any E)) : M unit :=
  Write E amb l ERROR fmt a.
Definition Logger_Fatal (amb : Ambient) (l : nat) (fmt : string) (a : list (Any E))
    : World -> Exit unit :=
  fun w =>
    match Write E amb l FATAL fmt a w with
    | Ok _ w' => Exited 1 w'
    | Panic p w' => Returned (Panic p w')
    end.

End Levels.

(** ** The background worker *)

(** What [bgWorker] does when its ticker fires, at the instant [t]:
    [updateNow], then [Flush] on every logger of [loggerMap]. [order] is
    the order in which the [range] over the map yields the loggers, which
    Go leaves open. *)
Definition bgWorker_tick (t : Time) (order : list nat) : M unit :=
  updateNow t ;; forRange order Flush.

(** * Specification-side definitions *)

(** The names listed by the documentation of the configuration format,
    in lower case, with the level each stands for. *)
Definition level_table : list (string * Z) :=
  [("d", DEBUG); ("i", INFO); ("w", WARN); ("e", ERROR);
   ("debug", DEBUG); ("info", INFO); ("warn", WARN); ("warning", WARN);
   ("err", ERROR); ("error", ERROR); ("disable", DISABLE)].

Fixpoint assoc (k : string) (t : list (string * Z)) : option Z :=
  match t with
  | [] => None
  | (k', v) :: t' => if String.eqb k k' then Some v else assoc k t'
  end.

(** What a run returned, and the world it ended in (also after a panic,
    which a caller may recover from). *)
Definition result_level {A} (r : Res A) : option A :=
  match r with Ok a _ => Some a | Panic _ _ => None end.

Definition res_world {A} (r : Res A) : World :=
  match r with Ok _ w => w | Panic _ w => w end.

(** The minimum of the writers' thresholds, DISABLE for no writer: the
    value the documentation gives for [minLevel]. *)
Definition min_threshold (ws : list Writer) : Z :=
  match ws with
  | [] => DISABLE
  | wr :: ws' => fold_left Z.min (map level ws') (level wr)
  end.

(** The name the documentation gives to a log file. *)
Definition log_filename (pfx : string) (date : Z) : string :=
  pfx +:+ "-" +:+ itoa date +:+ ".log".

(** An instant that a clock can show. *)
Definition valid_time (t : Time) : Prop :=
  0 <= Year t /\ 1 <= Month t <= 12 /\ 1 <= Day t <= 31.

(** [post m w Q R]: running [m] from [w] either returns [a] in a world
    satisfying [Q a], or panics in a world satisfying [R]. *)
Definition post {A} (m : M A) (w : World) (Q : A -> World -> Prop)
    (R : World -> Prop) : Prop :=
  match m w with
  | Ok a w' => Q a w'
  | Panic _ w' => R w'
  end.

(** A writer made by [Init] or changed by [SetLevel]: its device exists and
    its threshold is one that [getLevelFromStr] returns. *)
Definition writer_wf (w : World) (wr : Writer) : Prop :=
  (device wr < length (devices w))%nat /\ DEBUG <= level wr <= DISABLE.

Definition logger_wf (w : World) (log : Logger) : Prop :=
  writers log <> [] /\ Forall (writer_wf w) (writers log) /\
  minLevel log = min_threshold (writers log).

(** Every registered name is in lower case and points to a logger. *)
Definition registry_wf (w : World) : Prop :=
  forall name l, loggerMap w !! name = Some l ->
    ToLower name = name /\ exists log, loggers w !! l = Some log /\ logger_wf w log.

(** A [FileDevice] with an open file has a buffered writer, and the file
    is the one named after the date it was opened for. *)
Definition file_ok (f : FileDevice) : Prop :=
  (is_Some (file f) -> is_Some (writer f)) /\
  (forall h, file f = Some h -> h = log_filename (prefix f) (lastdate f)).

Definition dev_ok (dev : DeviceObj) : Prop :=
  match dev with
  | File f => file_ok f
  | _ => True
  end.

Definition devices_ok (w : World) : Prop := Forall dev_ok (devices w).

Definition registry_ok (w : World) : Prop :=
  registry_wf w /\ devices_ok w /\ is_Some (loggerMap w !! "default").

(** [same_store w w']: only the traces and the clock differ. *)
Definition same_store (w w' : World) : Prop :=
  loggerMap w' = loggerMap w /\ loggers w' = loggers w /\ devices w' = devices w.

(** No name leaves the registry. *)
Definition grows (w w' : World) : Prop :=
  forall k, is_Some (loggerMap w !! k) -> is_Some (loggerMap w' !! k).

Definition good (w w' : World) : Prop :=
  registry_wf w' /\ devices_ok w' /\ grows w w'.

Definition def_name (def : LoggerDefine) : string :=
  match def with mkDefine n _ _ => ToLower n end.

(** The kind of device a definition asks for is one [deviceMap] knows. *)
Definition known_kind (dev : string) : Prop :=
  is_Some (deviceMap !! (SplitN2 dev).1).

Definition def_known (def : LoggerDefine) : Prop :=
  match def with mkDefine _ _ wr => known_kind (ToLower wr) end.

(** The body of the loop of [Logger.Write]. *)
Definition offer (E : Env) (lv : Z) (b : bytes) (writer : Writer) : M unit :=
  if lv >=? level writer then
    call (CDeviceWrite (device writer) b) ;; Device_Write E (device writer) b
  else mret tt.

(** The message [Logger.Write] hands to the formatter. *)
Definition rendered (E : Env) (fmt : string) (a : list (Any E)) : string :=
  match a with [] => fmt | _ => Sprintf E fmt a end.

(** The writers whose threshold a message of level [lv] meets. *)
Definition accepting (lv : Z) (ws : list Writer) : list Writer :=
  filter (fun wr => level wr <= lv) ws.

(** The calls a [Logger.Write] of level [lv] is to make: none below the
    cached level, else one formatting, one delivery per accepting writer
    in the order of the list, and the return of the buffer. *)
Definition dispatch (E : Env) (amb : Ambient) (log : Logger) (lv : Z)
    (fmt : string) (a : list (Any E)) : list Call :=
  if lv <? minLevel log then []
  else
    [CFormat lv (rendered E fmt a)] ++
    map (fun wr => CDeviceWrite (device wr)
                     (Format (format log) amb lv (rendered E fmt a)))
        (accepting lv (writers log)) ++
    [CBuffsPut].

Definition is_dispatch_call (c : Call) : Prop :=
  match c with
  | CFormat _ _ | CDeviceWrite _ _ | CBuffsPut => True
  | CDeviceFlush _ => False
  end.

(** The worlds a program can be in: the package's [init] has run
    [Init(nil)], and the exported functions have been called any number
    of times, a panic of one of them possibly recovered from. The clock is
    advanced by the background worker. *)
Inductive reachable (E : Env) : World -> Prop :=
| reach_start w :
    Init E [] world0 = Ok tt w -> reachable E w
| reach_Init cfg w :
    reachable E w -> reachable E (res_world (Init E cfg w))
| reach_SetLevel name index lvl w :
    reachable E w -> reachable E (res_world (SetLevel name index lvl w))
| reach_NewWriter lv dev w :
    reachable E w -> reachable E (res_world (NewWriter lv dev w))
| reach_NewLogger fmt ws w :
    reachable E w -> reachable E (res_world (NewLogger fmt ws w))
| reach_UpdateLevel l w :
    reachable E w -> reachable E (res_world (UpdateLevelAt l w))
| reach_Write amb l lv fmt a w :
    reachable E w -> reachable E (res_world (Write E amb l lv fmt a w))
| reach_Flush l w :
    reachable E w -> reachable E (res_world (Flush l w))
| reach_updateNow t w :
    reachable E w -> reachable E (res_world (updateNow t w)).

(** Worlds for the examples. *)
Definition world_init : World := res_world (Init env0 [] world0).

Definition world_app : World :=
  res_world (Init env0 [mkDefine "App" "debug" "console";
                        mkDefine "app" "error" "file:/var/log/app";
                        mkDefine "off" "disable" "stdout"]
                  world_init).

Definition amb0 : Ambient := mkAmbient (mkTime 2009 1 5 13 7 9) None.

(** No slash in the string but, possibly, as its last character. *)
Definition no_inner_slash (s : string) : Prop :=
  forall i, (S i < String.length s)%nat -> String.get i s <> Some "/"%char.

Definition no_colon (s : string) : Prop :=
  forall i, String.get i s <> Some ":"%char.

(** The device objects that the constructors of [deviceMap] make. *)
Definition fresh_dev (obj : DeviceObj) : Prop :=
  obj = Console \/ obj = Stdout \/ exists args, obj = File (mkFileDevice None None args 0).

(** What [Init] may do to the stores: names keep their loggers, loggers
    keep their formatter and their writers and may get more writers,
    devices stay and new ones are added. *)
Definition extends (w w' : World) : Prop :=
  (forall k l, loggerMap w !! k = Some l -> loggerMap w' !! k = Some l) /\
  (forall l log, loggers w !! l = Some log ->
     exists log' extra, loggers w' !! l = Some log' /\
       writers log' = writers log ++ extra /\ format log' = format log) /\
  (exists ds, devices w' = devices w ++ ds /\ Forall fresh_dev ds).

(** A file device written to several times, each time with the date the
    clock cache then holds. *)
Fixpoint FileDevice_Writes (E : Env) (f : FileDevice) (steps : list (Z * bytes))
    : option (FileDevice * list OsCall) :=
  match steps with
  | [] => Some (f, [])
  | (date, p) :: steps' =>
      '(f1, tr1) ← FileDevice_Write E date f p;
      '(f2, tr2) ← FileDevice_Writes E f1 steps';
      Some (f2, tr1 ++ tr2)
  end.

(** The files opened, the files closed and the buffered writes of a
    trace, in order. *)
Definition opened (tr : list OsCall) : list string :=
  omap (fun c => match c with OsOpenFile n => Some n | _ => None end) tr.
Definition closed (tr : list OsCall) : list string :=
  omap (fun c => match c with OsClose n => Some n | _ => None end) tr.
Definition buffered (tr : list OsCall) : list (Target * bytes) :=
  omap (fun c => match c with BufWrite t p => Some (t, p) | _ => None end) tr.

(** The report of a failed write or close, and the calls of
    [FileDevice.Write] before the file is opened: the old file, if any,
    is flushed and closed; the directory is looked up and made when
    missing. *)
Definition write_report (E : Env) (t : Target) (p : bytes) : list OsCall :=
  match Write_err E t p with
  | Some e => [Printf ("ERROR: logger cannot write file: " +:+ e +:+ "
")]
  | None => []
  end.

Definition close_report (E : Env) (h : string) : list OsCall :=
  match Close_err E h with
  | Some e => [Printf ("ERROR: logger cannot close file: " +:+ e +:+ "
")]
  | None => []
  end.

Definition before_open (E : Env) (f : FileDevice) (name : string) : list OsCall :=
  match file f, writer f with
  | Some h, Some t => [BufFlush t; OsClose h] ++ close_report E h
  | _, _ => []
  end ++
  [OsStat (path_Dir E name)] ++
  (if stat_IsNotExist E (path_Dir E name) then [OsMkdirAll (path_Dir E name)] else []).

(** An instant that a clock can show, time of day included. *)
Definition valid_clock (t : Time) : Prop :=
  valid_time t /\ 0 <= Hour t < 24 /\ 0 <= Minute t < 60 /\ 0 <= Second t < 60.

(** The buffered writer of a file device is over a file. *)
Definition writer_over_file (dev : DeviceObj) : Prop :=
  match dev with
  | File f => forall t, writer f = Some t -> exists h, t = ToFile h
  | _ => True
  end.

(** A call that hands bytes over hands over [b]. *)
Definition carries (b : bytes) (c : OsCall) : Prop :=
  match c with
  | StdoutWrite x | BufWrite _ x => x = b
  | _ => True
  end.

(** What a console or stdout device does with the bytes [b]. *)
Definition plain_output (w : World) (b : bytes) (wr : Writer) : OsCall :=
  match devices w !! device wr with
  | Some Stdout => BufWrite ToStdout b
  | _ => StdoutWrite b
  end.

Definition plain_device (w : World) (wr : Writer) : Prop :=
  devices w !! device wr = Some Console \/ devices w !! device wr = Some Stdout.

(** * Properties *)

(** ** Level names *)

Lemma lower_ascii_idem c : lower_ascii (lower_ascii c) = lower_ascii c.
Proof.
  assert (H : forall n, (n < 256)%nat ->
            lower_ascii (lower_ascii (ascii_of_nat n)) = lower_ascii (ascii_of_nat n)).
  { intros n Hn. do 256 (destruct n as [|n]; [reflexivity|]). lia. }
  rewrite <- (ascii_nat_embedding c). apply H, nat_ascii_bounded.
Qed.

Lemma ToLower_idem s : ToLower (ToLower s) = ToLower s.
Proof.
  induction s as [|c s IH]; simpl; [reflexivity|].
  by rewrite lower_ascii_idem, IH.
Qed.

Lemma getLevelFromStr_assoc s w :
  getLevelFromStr s w =
  match assoc (ToLower s) level_table with
  | Some v => Ok v w
  | None => Ok INFO (add_os [Printf ("ERROR: logger level unknown: " +:+ s +:+ "
")] w)
  end.
Proof.
  unfold getLevelFromStr, level_table, assoc. cbv zeta.
  destruct (String.eqb (ToLower s) "d"); [reflexivity|].
  destruct (String.eqb (ToLower s) "i"); [reflexivity|].
  destruct (String.eqb (ToLower s) "w"); [reflexivity|].
  destruct (String.eqb (ToLower s) "e"); [reflexivity|].
  destruct (String.eqb (ToLower s) "debug"); [reflexivity|].
  destruct (String.eqb (ToLower s) "info"); [reflexivity|].
  destruct (String.eqb (ToLower s) "warn"); [reflexivity|].
  destruct (String.eqb (ToLower s) "warning"); [reflexivity|].
  destruct (String.eqb (ToLower s) "err"); [reflexivity|].
  destruct (String.eqb (ToLower s) "error"); [reflexivity|].
  destruct (String.eqb (ToLower s) "disable"); reflexivity.
Qed.

(** What [getLevelFromStr] can return. *)
Lemma getLevelFromStr_range s w :
  exists v w', getLevelFromStr s w = Ok v w' /\ DEBUG <= v <= DISABLE /\
    loggerMap w' = loggerMap w /\ loggers w' = loggers w /\
    devices w' = devices w /\ calls w' = calls w.
Proof.
  rewrite getLevelFromStr_assoc.
  assert (Ht : forall k v, assoc k level_table = Some v -> DEBUG <= v <= DISABLE).
  { unfold level_table, assoc, DEBUG, INFO, WARN, ERROR, DISABLE. intros k v.
    repeat (destruct (String.eqb k _); [intros [= <-]; lia|]). discriminate. }
  destruct (assoc (ToLower s) level_table) as [v|] eqn:Hv.
  - exists v, w. eauto 10.
  - eexists _, _. split; [reflexivity|]. unfold DEBUG, INFO, DISABLE. simpl. repeat split; lia.
Qed.



(** ** The aggregate threshold *)

Lemma UpdateLevel_fold ws lg :
  let lg' := fold_left
    (fun lg wr => if level wr <? minLevel lg then set_minLevel (level wr) lg else lg)
    ws lg in
  minLevel lg' = fold_left Z.min (map level ws) (minLevel lg)
  /\ format lg' = format lg /\ writers lg' = writers lg.
Proof.
  revert lg. induction ws as [|wr ws IH]; intros lg; simpl; [done|].
  destruct (IH (if level wr <? minLevel lg then set_minLevel (level wr) lg else lg))
    as (Hm & Hf & Hw).
  rewrite Hm, Hf, Hw.
  destruct (Z.ltb_spec (level wr) (minLevel lg)); simpl.
  - rewrite Z.min_r by lia. done.
  - rewrite Z.min_l by lia. done.
Qed.

Lemma fold_min_init (zs : list Z) (a b : Z) :
  fold_left Z.min zs (Z.min a b) = Z.min a (fold_left Z.min zs b).
Proof.
  revert b. induction zs as [|z zs IH]; intros b; simpl; [done|].
  by rewrite <- Z.min_assoc, IH.
Qed.

Lemma fold_min_le (zs : list Z) (a : Z) : fold_left Z.min zs a <= a.
Proof.
  revert a. induction zs as [|z zs IH]; intros a; simpl; [lia|].
  specialize (IH (Z.min a z)). lia.
Qed.

Lemma UpdateLevel_minLevel log :
  minLevel (UpdateLevel log) = Z.min DISABLE (min_threshold (writers log)).
Proof.
  unfold UpdateLevel.
  destruct (UpdateLevel_fold (writers log) (set_minLevel DISABLE log)) as (-> & _ & _).
  simpl. destruct (writers log) as [|wr ws]; simpl; [done|].
  apply fold_min_init.
Qed.

Lemma UpdateLevel_format log : format (UpdateLevel log) = format log.
Proof.
  unfold UpdateLevel.
  by destruct (UpdateLevel_fold (writers log) (set_minLevel DISABLE log)) as (_ & -> & _).
Qed.

Lemma UpdateLevel_writers log : writers (UpdateLevel log) = writers log.
Proof.
  unfold UpdateLevel.
  by destruct (UpdateLevel_fold (writers log) (set_minLevel DISABLE log)) as (_ & _ & ->).
Qed.

Lemma Logger_eq (a b : Logger) :
  minLevel a = minLevel b -> format a = format b -> writers a = writers b -> a = b.
Proof. destruct a, b; simpl; congruence. Qed.

Lemma UpdateLevel_idem log : UpdateLevel (UpdateLevel log) = UpdateLevel log.
Proof.
  apply Logger_eq.
  - by rewrite !UpdateLevel_minLevel, UpdateLevel_writers.
  - by rewrite !UpdateLevel_format.
  - by rewrite !UpdateLevel_writers.
Qed.

(** When no threshold exceeds DISABLE the cap at DISABLE is not felt. *)
Lemma min_threshold_le ws :
  ws <> [] -> Forall (fun wr => level wr <= DISABLE) ws -> min_threshold ws <= DISABLE.
Proof.
  destruct ws as [|wr ws]; [done|]. intros _ H. simpl.
  inversion H; subst. pose proof (fold_min_le (map level ws) (level wr)). lia.
Qed.


(** ** Reasoning about runs *)

Lemma post_bind {A B} (m : M A) (f : A -> M B) w Q R :
  post m w (fun a w' => post (f a) w' Q R) R -> post (m ≫= f) w Q R.
Proof.
  unfold post, mbind, M_bind. intros H.
  destruct (m w) eqn:Hm; exact H.
Qed.

Lemma post_ret {A} (a : A) w (Q : A -> World -> Prop) R : Q a w -> post (mret a) w Q R.
Proof. done. Qed.

Lemma post_get w Q R : Q w w -> post get w Q R.
Proof. done. Qed.

Lemma post_modify f w (Q : unit -> World -> Prop) R : Q tt (f w) -> post (modify f) w Q R.
Proof. done. Qed.

Lemma post_Ok {A} (m : M A) w Q R a w' : post m w Q R -> m w = Ok a w' -> Q a w'.
Proof. unfold post. intros H Hm. by rewrite Hm in H. Qed.

Lemma post_mono {A} (m : M A) w (Q Q' : A -> World -> Prop) (R R' : World -> Prop) :
  post m w Q R -> (forall a w', Q a w' -> Q' a w') -> (forall w', R w' -> R' w') ->
  post m w Q' R'.
Proof. unfold post. destruct (m w); auto. Qed.

(** ** Invariants of the registry *)

Lemma registry_wf_same w w' : same_store w w' -> registry_wf w -> registry_wf w'.
Proof.
  intros (Hm & Hl & Hd) H name l. rewrite Hm, Hl. intros Hn.
  destruct (H name l Hn) as (Hlow & log & Hlog & Hne & Hws & Hmin).
  split; [done|]. exists log. repeat split; try done.
  eapply Forall_impl; [exact Hws|]. intros wr. unfold writer_wf. by rewrite Hd.
Qed.

Lemma devices_ok_same w w' : same_store w w' -> devices_ok w -> devices_ok w'.
Proof. intros (_ & _ & Hd). unfold devices_ok. by rewrite Hd. Qed.

Lemma writer_wf_grow w w' wr :
  (length (devices w) <= length (devices w'))%nat -> writer_wf w wr -> writer_wf w' wr.
Proof. unfold writer_wf. intros ? [? ?]. split; [lia|done]. Qed.

Lemma logger_wf_grow w w' log :
  (length (devices w) <= length (devices w'))%nat -> logger_wf w log -> logger_wf w' log.
Proof.
  intros Hle (Hne & Hws & Hmin). repeat split; try done.
  eapply Forall_impl; [exact Hws|]. intros wr. by apply writer_wf_grow.
Qed.

Lemma post_getLevelFromStr s w (Q : Z -> World -> Prop) R :
  (forall v w', DEBUG <= v <= DISABLE -> same_store w w' -> calls w' = calls w -> Q v w') ->
  post (getLevelFromStr s) w Q R.
Proof.
  intros H. unfold post.
  destruct (getLevelFromStr_range s w) as (v & w' & -> & Hv & Hm & Hl & Hd & Hc).
  apply H; done.
Qed.

(** An updated logger keeps what [logger_wf] asks of its writers and gets
    the aggregate threshold right. *)
Lemma UpdateLevel_wf w log :
  writers log <> [] -> Forall (writer_wf w) (writers log) -> logger_wf w (UpdateLevel log).
Proof.
  intros Hne Hws. unfold logger_wf.
  rewrite UpdateLevel_writers, UpdateLevel_minLevel. repeat split; try done.
  apply Z.min_r, min_threshold_le; [done|].
  eapply Forall_impl; [exact Hws|]. by intros wr [_ [_ ?]].
Qed.


Section Registry.
Variable E : Env.

Lemma deviceMap_dev_ok k create args : deviceMap !! k = Some create -> dev_ok (create args).
Proof.
  unfold deviceMap. intros H. apply elem_of_list_to_map_2 in H.
  repeat (apply elem_of_cons in H as [[= _ ->]|H]; [simpl; try done|]).
  - split; [by intros [? [=]]|done].
  - by apply elem_of_nil in H.
Qed.

Lemma post_NewWriter lv dev w (Q : Writer -> World -> Prop) (R : World -> Prop) :
  (forall obj, known_kind dev -> dev_ok obj ->
     Q (mkWriter lv (length (devices w))) (set_devices (devices w ++ [obj]) w)) ->
  (~ known_kind dev -> R w) -> post (NewWriter lv dev) w Q R.
Proof.
  intros HQ HR. unfold NewWriter, NewDevice, known_kind in *.
  destruct (SplitN2 dev) as [name rest]. simpl in *.
  destruct (deviceMap !! name) as [create|] eqn:Hk.
  - unfold post, mbind, M_bind. apply HQ; [done|]. by eapply deviceMap_dev_ok.
  - apply HR. by intros [? [=]].
Qed.

Lemma post_load_logger l w lg (Q : Logger -> World -> Prop) R :
  loggers w !! l = Some lg -> Q lg w -> post (load_logger l) w Q R.
Proof. intros Hl HQ. unfold post, load_logger. by rewrite Hl. Qed.

Lemma post_load_logger_any l w (Q : Logger -> World -> Prop) (R : World -> Prop) :
  (forall lg, Q lg w) -> R w -> post (load_logger l) w Q R.
Proof. intros HQ HR. unfold post, load_logger. by destruct (loggers w !! l). Qed.

Lemma post_UpdateLevelAt l w lg (Q : unit -> World -> Prop) R :
  loggers w !! l = Some lg ->
  Q tt (set_loggers (<[l := UpdateLevel lg]> (loggers w)) w) ->
  post (UpdateLevelAt l) w Q R.
Proof.
  intros Hl HQ. unfold UpdateLevelAt.
  eapply post_bind, post_load_logger; [exact Hl|]. by apply post_modify.
Qed.

Lemma post_UpdateLevelAt_any l w (Q : unit -> World -> Prop) (R : World -> Prop) :
  (forall h, Q tt (set_loggers h w)) -> R w -> post (UpdateLevelAt l) w Q R.
Proof.
  intros HQ HR. unfold UpdateLevelAt.
  apply post_bind, post_load_logger_any; [|done]. intros lg. by apply post_modify.
Qed.

Lemma registry_wf_insert w w' l lg :
  registry_wf w -> loggerMap w' = loggerMap w ->
  loggers w' = <[l := lg]> (loggers w) ->
  (length (devices w) <= length (devices w'))%nat ->
  logger_wf w' lg -> registry_wf w'.
Proof.
  intros Hwf Hm Hl Hd Hlg name l0. rewrite Hm, Hl. intros Hn.
  destruct (Hwf name l0 Hn) as (Hlow & log & Hlog & Hok). split; [done|].
  destruct (decide (l0 = l)) as [->|Hne].
  - exists lg. split; [|done]. apply list_lookup_insert_eq. by eapply lookup_lt_Some.
  - exists log. rewrite list_lookup_insert_ne by done. split; [done|].
    by eapply logger_wf_grow.
Qed.

Lemma registry_wf_alloc w w' name lg :
  registry_wf w -> ToLower name = name ->
  loggerMap w' = <[name := length (loggers w)]> (loggerMap w) ->
  loggers w' = loggers w ++ [lg] ->
  (length (devices w) <= length (devices w'))%nat ->
  logger_wf w' lg -> registry_wf w'.
Proof.
  intros Hwf Hname Hm Hl Hd Hlg k l0. rewrite Hm, Hl.
  destruct (decide (name = k)) as [<-|Hne].
  - rewrite lookup_insert_eq. intros [= <-]. split; [done|].
    exists lg. split; [|done]. by rewrite lookup_app_r, Nat.sub_diag.
  - rewrite lookup_insert_ne by done. intros Hk.
    destruct (Hwf k l0 Hk) as (Hlow & log & Hlog & Hok). split; [done|].
    exists log. split; [by apply lookup_app_l_Some|]. by eapply logger_wf_grow.
Qed.

(** Cells added to the heaps change nothing for the registry. *)
Lemma registry_wf_extend w w' ls ds :
  registry_wf w -> loggerMap w' = loggerMap w ->
  loggers w' = loggers w ++ ls -> devices w' = devices w ++ ds -> registry_wf w'.
Proof.
  intros Hwf Hm Hl Hd k l0. rewrite Hm, Hl. intros Hk.
  destruct (Hwf k l0 Hk) as (Hlow & log & Hlog & Hok). split; [done|].
  exists log. split; [by apply lookup_app_l_Some|].
  eapply logger_wf_grow; [|exact Hok]. rewrite Hd, length_app. lia.
Qed.


Lemma grows_trans w1 w2 w3 : grows w1 w2 -> grows w2 w3 -> grows w1 w3.
Proof. intros H1 H2 k Hk. by apply H2, H1. Qed.

Lemma grows_insert w w' name l :
  loggerMap w' = <[name := l]> (loggerMap w) -> grows w w'.
Proof.
  intros Hm k Hk. rewrite Hm. destruct (decide (name = k)) as [<-|Hne].
  - rewrite lookup_insert_eq. by eexists.
  - by rewrite lookup_insert_ne.
Qed.

Lemma grows_same w w' : loggerMap w' = loggerMap w -> grows w w'.
Proof. intros Hm k. by rewrite Hm. Qed.

Lemma good_same w w' : registry_wf w -> devices_ok w -> same_store w w' -> good w w'.
Proof.
  intros Hwf Hdev Hs. split; [by eapply registry_wf_same|].
  split; [by eapply devices_ok_same|]. apply grows_same, Hs.
Qed.

Lemma good_trans w1 w2 w3 : good w1 w2 -> good w2 w3 -> good w1 w3.
Proof.
  intros (_ & _ & Hg1) (Hwf & Hdev & Hg2).
  split; [done|]. split; [done|]. by eapply grows_trans.
Qed.

Lemma devices_ok_snoc w w' obj :
  devices_ok w -> devices w' = devices w ++ [obj] -> dev_ok obj -> devices_ok w'.
Proof.
  intros Hdev Hd Hobj. unfold devices_ok. rewrite Hd.
  apply Forall_app. split; [done|]. by apply Forall_singleton.
Qed.

(** One definition applied by [Init]: the invariants are kept, and a panic
    means that the kind of device is unknown. *)
Lemma Init_define_post def w :
  registry_wf w -> devices_ok w ->
  post (Init_define E def) w (fun _ w' => good w w')
       (fun w' => good w w' /\ ~ def_known def).
Proof.
  intros Hwf Hdev. destruct def as [n lv wr]. unfold Init_define.
  apply post_bind, post_get.
  destruct (loggerMap w !! ToLower n) as [l|] eqn:Hn.
  - apply post_bind, post_getLevelFromStr. intros v w1 Hv Hs Hc.
    pose proof Hs as (Hm1 & Hl1 & Hd1).
    apply post_bind, post_NewWriter; [|split; [by apply good_same|done]].
    intros obj _ Hobj.
    destruct (Hwf _ _ Hn) as (Hlow & lg & Hlg & Hne & Hws & Hmin).
    eapply post_bind, post_load_logger; [simpl; by rewrite Hl1|].
    apply post_bind, post_modify.
    eapply post_UpdateLevelAt.
    { simpl. rewrite Hl1. apply list_lookup_insert_eq. by eapply lookup_lt_Some. }
    simpl. rewrite list_insert_insert_eq.
    split; [|split].
    + eapply registry_wf_insert; [exact Hwf|simpl; done|simpl; by rewrite Hl1| |].
      * simpl. rewrite Hd1, length_app. lia.
      * apply UpdateLevel_wf; simpl; [by destruct (writers lg)|].
        apply Forall_app. split.
        -- eapply Forall_impl; [exact Hws|]. intros x. apply writer_wf_grow.
           simpl. rewrite Hd1, length_app. lia.
        -- apply Forall_singleton. split; [|done]. simpl.
           rewrite Hd1, length_app. simpl. lia.
    + apply (devices_ok_snoc w _ obj); [done|simpl; by rewrite Hd1|done].
    + by apply grows_same.
  - apply post_bind, post_getLevelFromStr. intros v w1 Hv Hs Hc.
    pose proof Hs as (Hm1 & Hl1 & Hd1).
    apply post_bind, post_NewWriter; [|split; [by apply good_same|done]].
    intros obj _ Hobj. unfold NewLogger.
    apply post_bind. unfold post at 1.
    apply post_bind, post_modify.
    eapply post_UpdateLevelAt.
    { simpl. rewrite lookup_app_r by done. by rewrite Nat.sub_diag. }
    simpl. rewrite UpdateLevel_idem, list_insert_id
      by (rewrite lookup_app_r by done; by rewrite Nat.sub_diag).
    split; [|split].
    + eapply (registry_wf_alloc w _ (ToLower n)); [exact Hwf|apply ToLower_idem| | | |].
      * simpl. by rewrite Hm1, Hl1.
      * simpl. by rewrite Hl1.
      * simpl. rewrite Hd1, length_app. lia.
      * apply UpdateLevel_wf; simpl; [done|].
        apply Forall_singleton. split; [|done]. simpl. rewrite length_app. simpl. lia.
    + apply (devices_ok_snoc w _ obj); [done|simpl; by rewrite Hd1|done].
    + eapply grows_insert. simpl. by rewrite Hm1.
Qed.

Lemma Init_loop_post cfg w :
  registry_wf w -> devices_ok w ->
  post (forRange cfg (Init_define E)) w (fun _ w' => good w w')
       (fun w' => good w w' /\ ~ Forall def_known cfg).
Proof.
  revert w. induction cfg as [|def cfg IH]; intros w Hwf Hdev; simpl.
  - apply post_ret. by apply good_same.
  - apply post_bind.
    eapply post_mono; [by apply Init_define_post| |].
    + intros [] w1 Hg. simpl.
      eapply post_mono; [apply IH; apply Hg| |].
      * intros ? w2 Hg2. by eapply good_trans.
      * intros w2 [Hg2 Hk]. split; [by eapply good_trans|].
        intros Hall. apply Hk. by apply Forall_cons in Hall as [_ ?].
    + intros w1 [Hg Hk]. split; [done|].
      intros Hall. apply Hk. by apply Forall_cons in Hall as [? _].
Qed.

Lemma NewWriter_console lv w :
  NewWriter lv "console" w =
  Ok (mkWriter lv (length (devices w))) (set_devices (devices w ++ [Console]) w).
Proof. reflexivity. Qed.

(** [Init] keeps the invariants of the registry; when it completes there
    is a "default"; it panics only on an unknown kind of device. *)
Lemma Init_post cfg w :
  registry_wf w -> devices_ok w ->
  post (Init E cfg) w (fun _ w' => good w w' /\ is_Some (loggerMap w' !! "default"))
       (fun w' => good w w' /\ ~ Forall def_known cfg).
Proof.
  intros Hwf Hdev. unfold Init. apply post_bind.
  eapply post_mono; [by apply Init_loop_post| |done].
  intros [] w1 (Hwf1 & Hdev1 & Hg1). simpl.
  apply post_bind, post_get.
  destruct (loggerMap w1 !! "default") as [l|] eqn:Hdef.
  - apply post_ret. split; [done|]. by rewrite Hdef.
  - apply post_bind. unfold post at 1. rewrite NewWriter_console.
    unfold NewLogger. apply post_bind. unfold post at 1.
    apply post_modify. simpl. split; [|by rewrite lookup_insert_eq].
    split; [|split].
    + eapply (registry_wf_alloc w1 _ "default"); [exact Hwf1|done|done|done| |].
      * simpl. rewrite length_app. lia.
      * apply UpdateLevel_wf; simpl; [done|].
        apply Forall_singleton. split; [|done]. simpl. rewrite length_app. simpl. lia.
    + by apply (devices_ok_snoc w1 _ Console).
    + eapply grows_trans; [exact Hg1|]. by eapply grows_insert.
Qed.

Lemma Init_registry_ok cfg w w' :
  registry_wf w -> devices_ok w -> Init E cfg w = Ok tt w' -> registry_ok w'.
Proof.
  intros Hwf Hdev Hrun.
  pose proof (post_Ok _ _ _ _ _ _ (Init_post cfg w Hwf Hdev) Hrun) as [(? & ? & ?) ?].
  done.
Qed.

Lemma Init_preserves cfg w : registry_ok w -> registry_ok (res_world (Init E cfg w)).
Proof.
  intros (Hwf & Hdev & Hdef). pose proof (Init_post cfg w Hwf Hdev) as H.
  unfold post in H. destruct (Init E cfg w) as [[] w'|pk w']; simpl.
  - by destruct H as [(? & ? & ?) ?].
  - destruct H as [(? & ? & Hg) _]. repeat (split; [done|]). by apply Hg.
Qed.

(** [Init] completes when every definition names a known kind of device. *)
Lemma Init_completes cfg w :
  registry_wf w -> devices_ok w -> Forall def_known cfg ->
  exists w', Init E cfg w = Ok tt w'.
Proof.
  intros Hwf Hdev Hall. pose proof (Init_post cfg w Hwf Hdev) as H.
  unfold post in H. destruct (Init E cfg w) as [[] w'|pk w']; [by eexists|].
  by destruct H as [_ []].
Qed.

Lemma world0_wf : registry_wf world0 /\ devices_ok world0.
Proof.
  split; [|by apply Forall_nil]. intros name l. simpl.
  rewrite lookup_empty. discriminate.
Qed.

(** Which names [Init] can add. *)
Lemma Init_define_keys def w :
  post (Init_define E def) w
    (fun _ w' => forall k, is_Some (loggerMap w' !! k) ->
                   is_Some (loggerMap w !! k) \/ k = def_name def)
    (fun _ => True).
Proof.
  destruct def as [n lv wr]. unfold Init_define.
  apply post_bind, post_get.
  destruct (loggerMap w !! ToLower n) as [l|] eqn:Hn.
  - apply post_bind, post_getLevelFromStr. intros v w1 Hv (Hm1 & Hl1 & Hd1) Hc.
    apply post_bind, post_NewWriter; [|done]. intros obj _ _.
    apply post_bind, post_load_logger_any; [|done]. intros lg.
    apply post_bind, post_modify. apply post_UpdateLevelAt_any; [|done].
    intros h k. simpl. rewrite Hm1. by left.
  - apply post_bind, post_getLevelFromStr. intros v w1 Hv (Hm1 & Hl1 & Hd1) Hc.
    apply post_bind, post_NewWriter; [|done]. intros obj _ _.
    unfold NewLogger. apply post_bind. unfold post at 1.
    apply post_bind, post_modify. apply post_UpdateLevelAt_any; [|done].
    intros h k. simpl. rewrite Hm1. destruct (decide (ToLower n = k)) as [<-|Hne].
    + by right.
    + rewrite lookup_insert_ne by done. by left.
Qed.

Lemma Init_loop_keys cfg w :
  post (forRange cfg (Init_define E)) w
    (fun _ w' => forall k, is_Some (loggerMap w' !! k) ->
                   is_Some (loggerMap w !! k) \/ k ∈ map def_name cfg)
    (fun _ => True).
Proof.
  revert w. induction cfg as [|def cfg IH]; intros w; simpl.
  - apply post_ret. intros k Hk. by left.
  - apply post_bind. eapply post_mono; [apply Init_define_keys| |done].
    intros [] w1 H1. simpl. eapply post_mono; [apply IH| |done].
    intros ? w2 H2 k Hk. destruct (H2 k Hk) as [Hk1|Hin].
    + destruct (H1 k Hk1) as [?| ->]; [by left|right; apply elem_of_cons; by left].
    + right. apply elem_of_cons. by right.
Qed.

(** The "default" logger that [Init] makes when the registry has none
    after the definitions have been applied. *)
Lemma Init_creates_default cfg w w' :
  Init E cfg w = Ok tt w' ->
  loggerMap w !! "default" = None -> "default" ∉ map def_name cfg ->
  exists l d, loggerMap w' !! "default" = Some l /\
    loggers w' !! l = Some (mkLogger DEBUG (DefaultFormatter E) [mkWriter DEBUG d]) /\
    devices w' !! d = Some Console.
Proof.
  intros Hrun Hnone Hnot. revert Hrun. unfold Init, mbind, M_bind.
  pose proof (Init_loop_keys cfg w) as Hk. unfold post in Hk.
  destruct (forRange cfg (Init_define E) w) as [[] w1|pk w1]; [|done].
  simpl. destruct (loggerMap w1 !! "default") as [l|] eqn:Hdef.
  { destruct (Hk "default") as [[? Hs]|Hin]; [by rewrite Hdef| |done]. congruence. }
  rewrite NewWriter_console. unfold NewLogger, modify. intros [= <-]. simpl.
  exists (length (loggers w1)), (length (devices w1)).
  rewrite lookup_insert_eq. split; [done|].
  split; rewrite lookup_app_r by done; by rewrite Nat.sub_diag.
Qed.

Lemma Init_has_default cfg w :
  post (Init E cfg) w (fun _ w' => is_Some (loggerMap w' !! "default")) (fun _ => True).
Proof.
  unfold Init. apply post_bind.
  eapply post_mono; [apply Init_loop_keys| |done]. intros [] w1 _. simpl.
  apply post_bind, post_get.
  destruct (loggerMap w1 !! "default") as [l|] eqn:Hdef.
  - apply post_ret. by rewrite Hdef.
  - apply post_bind. unfold post at 1. rewrite NewWriter_console.
    unfold NewLogger. apply post_bind. unfold post at 1.
    apply post_modify. simpl. by rewrite lookup_insert_eq.
Qed.

Lemma Init_nil w :
  Init E [] w =
  match loggerMap w !! "default" with
  | Some _ => Ok tt w
  | None =>
      Ok tt (set_loggerMap (<["default" := length (loggers w)]> (loggerMap w))
              (set_loggers
                 (loggers w ++ [mkLogger DEBUG (DefaultFormatter E)
                                   [mkWriter DEBUG (length (devices w))]])
                 (set_devices (devices w ++ [Console]) w)))
  end.
Proof.
  unfold Init, mbind, M_bind. simpl. destruct (loggerMap w !! "default"); [done|].
  by rewrite NewWriter_console.
Qed.

End Registry.

(** ** [SetLevel], case by case *)

Lemma forRange_skip {A} (xs : list A) w : forRange xs (fun _ => mret tt) w = Ok tt w.
Proof. induction xs as [|x xs IH]; [done|]. simpl. unfold mbind, M_bind. simpl. exact IH. Qed.

Lemma SetLevel_unregistered name index lvl w :
  loggerMap w !! name = None ->
  SetLevel name index lvl w =
  Ok (Some ErrNameNotFound)
     (add_os [Printf ("ERROR: log name not found: " +:+ name +:+ "
")] w).
Proof. intros Hn. unfold SetLevel, mbind, M_bind, get. simpl. by rewrite Hn. Qed.

Lemma SetLevel_exceed name index lvl w l log :
  loggerMap w !! name = Some l -> loggers w !! l = Some log ->
  Z.of_nat (length (writers log)) <= index ->
  SetLevel name index lvl w =
  Ok (Some ErrIndexOutOfBound)
     (add_os [Printf ("ERROR: log index exceed: " +:+ itoa (Z.of_nat (length (writers log)))
                      +:+ ", " +:+ itoa index +:+ "
")] w).
Proof.
  intros Hn Hl Hi. unfold SetLevel, mbind, M_bind, get, load_logger. simpl.
  rewrite Hn, Hl. destruct (Z.geb_spec index (Z.of_nat (length (writers log)))); [done|lia].
Qed.

Lemma SetLevel_run name index lvl w l log :
  loggerMap w !! name = Some l -> loggers w !! l = Some log ->
  index < Z.of_nat (length (writers log)) ->
  exists v w1, getLevelFromStr lvl w = Ok v w1 /\ DEBUG <= v <= DISABLE /\
    same_store w w1 /\ calls w1 = calls w /\
    SetLevel name index lvl w =
      if index =? -1 then
        Ok None (set_loggers (<[l := UpdateLevel log]> (loggers w1)) w1)
      else if 0 <=? index then
        Ok None (set_loggers
          (<[l := UpdateLevel (set_writers (alter (set_level v) (Z.to_nat index) (writers log)) log)]>
             (loggers w1)) w1)
      else Panic (IndexOutOfRange index (Z.of_nat (length (writers log)))) w1.
Proof.
  intros Hn Hl Hi.
  destruct (getLevelFromStr_range lvl w) as (v & w1 & Hrun & Hv & Hm1 & Hl1 & Hd1 & Hc1).
  exists v, w1. repeat (split; [done|]).
  unfold SetLevel, mbind, M_bind, get, load_logger. simpl. rewrite Hn, Hl.
  destruct (Z.geb_spec index (Z.of_nat (length (writers log)))); [lia|].
  assert (Hl' : loggers w1 !! l = Some log) by (by rewrite Hl1).
  rewrite Hrun. destruct (index =? -1).
  - rewrite forRange_skip. unfold UpdateLevelAt, mbind, M_bind, load_logger.
    by rewrite Hl'.
  - destruct (0 <=? index); [|done].
    unfold store_logger, modify, UpdateLevelAt, mbind, M_bind, load_logger. simpl.
    rewrite list_lookup_insert_eq by (by eapply lookup_lt_Some).
    unfold store_logger, modify. simpl. by rewrite list_insert_insert_eq.
Qed.

(** [SetLevel] keeps the invariants of the registry, whatever its outcome. *)
Lemma SetLevel_registry_ok name index lvl w :
  registry_ok w -> registry_ok (res_world (SetLevel name index lvl w)).
Proof.
  intros (Hwf & Hdev & Hdef).
  assert (Hsame : forall w', same_store w w' -> registry_ok w').
  { intros w' Hs. split; [by eapply registry_wf_same|].
    split; [by eapply devices_ok_same|]. destruct Hs as (-> & _). done. }
  destruct (loggerMap w !! name) as [l|] eqn:Hn.
  2: { rewrite SetLevel_unregistered by done. by apply Hsame. }
  destruct (Hwf _ _ Hn) as (Hlow & log & Hl & Hne & Hws & Hmin).
  destruct (Z.le_gt_cases (Z.of_nat (length (writers log))) index) as [Hi|Hi].
  { erewrite SetLevel_exceed by done. by apply Hsame. }
  destruct (SetLevel_run name index lvl w l log Hn Hl) as
    (v & w1 & _ & Hv & Hs & _ & ->); [lia|].
  pose proof Hs as (Hm1 & Hl1 & Hd1).
  assert (Hins : forall lg, logger_wf w lg ->
            registry_ok (set_loggers (<[l := lg]> (loggers w1)) w1)).
  { intros lg Hlg. split; [|split].
    - eapply registry_wf_insert; [exact Hwf|done|simpl; by rewrite Hl1|simpl; by rewrite Hd1|].
      eapply logger_wf_grow; [|exact Hlg]. simpl. by rewrite Hd1.
    - unfold devices_ok. simpl. by rewrite Hd1.
    - simpl. by rewrite Hm1. }
  destruct (index =? -1).
  { apply Hins, UpdateLevel_wf; done. }
  destruct (0 <=? index); [|by apply Hsame].
  apply Hins, UpdateLevel_wf; simpl.
  - intros Hnil. apply (f_equal length) in Hnil. rewrite length_alter in Hnil.
    by destruct (writers log).
  - apply Forall_alter; [done|]. intros wr _ [Hd _]. split; done.
Qed.

(** ** Devices *)

Section Dispatch.
Variable E : Env.

Ltac split_trace H :=
  repeat first
    [ apply elem_of_nil in H; destruct H
    | apply elem_of_cons in H as [H|H]; [try discriminate H|] ].

Lemma FileDevice_Write_ok date f p :
  file_ok f ->
  exists f' tr, FileDevice_Write E date f p = Some (f', tr) /\
    file_ok f' /\ prefix f' = prefix f /\
    (forall name, OsOpenFile name ∈ tr -> name = log_filename (prefix f) date) /\
    (file f = None \/ lastdate f <> date -> OsOpenFile (log_filename (prefix f) date) ∈ tr) /\
    (forall h, file f' = Some h -> h = log_filename (prefix f) date).
Proof.
  destruct f as [fl wr pfx ld]. unfold file_ok, FileDevice_Write, FileDevice_Write_tail.
  simpl. intros [Hw Hname].
  destruct fl as [h|]; [destruct wr as [t|]; [|by destruct Hw as [? [=]]]|];
    destruct (decide (ld <> date)) as [Hd|Hd]; simpl;
    repeat match goal with
    | |- context [Close_err E ?x] => destruct (Close_err E x)
    | |- context [stat_IsNotExist E ?x] => destruct (stat_IsNotExist E x)
    | |- context [OpenFile_err E ?x] => destruct (OpenFile_err E x)
    | |- context [Write_err E ?x ?y] => destruct (Write_err E x y)
    end; simpl.
  all: eexists _, _; split; [reflexivity|]; simpl.
  all: unfold log_filename in *.
  all: repeat split; try done.
  all: try (intros name Hin; split_trace Hin; congruence).
  all: try (intros _; rewrite !elem_of_cons; tauto).
  all: try (intros [? [=]]).
  all: try (intros ? [= <-]; try done).
  all: try (intros [[=]|?]; done).
  all: assert (ld = date) as <- by (destruct (decide (ld = date)); [done|by destruct Hd]).
  all: by apply Hname.
Qed.

Lemma DeviceObj_Write_ok date dev p :
  dev_ok dev ->
  exists dev' tr, DeviceObj_Write E date dev p = Some (dev', tr) /\ dev_ok dev'.
Proof.
  destruct dev as [f| |]; simpl; intros Hok; [|by eexists _, _..].
  destruct (FileDevice_Write_ok date f p Hok) as (f' & tr & -> & Hok' & _).
  simpl. by eexists _, _.
Qed.

(** [Device.Write] touches the heap of devices and the system trace only,
    whatever its outcome. *)
Lemma Device_Write_frame d p w :
  let w' := res_world (Device_Write E d p w) in
  loggerMap w' = loggerMap w /\ loggers w' = loggers w /\ calls w' = calls w /\
  lastDate w' = lastDate w /\ lastTime w' = lastTime w.
Proof.
  unfold Device_Write. destruct (devices w !! d) as [dev|]; [|done].
  destruct (DeviceObj_Write E (lastDate w) dev p) as [[dev' tr]|]; done.
Qed.

Lemma Device_Write_ok d p w :
  (d < length (devices w))%nat -> devices_ok w ->
  exists w', Device_Write E d p w = Ok tt w' /\ devices_ok w' /\
    length (devices w') = length (devices w).
Proof.
  intros Hd Hok. unfold Device_Write.
  destruct (lookup_lt_is_Some_2 _ _ Hd) as [dev Hdev]. rewrite Hdev.
  assert (Hdv : dev_ok dev) by (by eapply Forall_lookup_1).
  destruct (DeviceObj_Write_ok (lastDate w) dev p Hdv) as (dev' & tr & -> & Hok').
  eexists. split; [reflexivity|]. unfold devices_ok. simpl.
  split; [by apply Forall_insert|by rewrite length_insert].
Qed.


(** ** [Logger.Write] *)

Lemma offer_frame lv b wr w :
  let w' := res_world (offer E lv b wr w) in
  loggerMap w' = loggerMap w /\ loggers w' = loggers w /\
  lastDate w' = lastDate w /\ lastTime w' = lastTime w /\
  exists tr, calls w' = calls w ++ tr /\ Forall is_dispatch_call tr.
Proof.
  unfold offer. destruct (lv >=? level wr).
  - unfold mbind, M_bind, call, modify.
    pose proof (Device_Write_frame (device wr) b (add_call (CDeviceWrite (device wr) b) w))
      as (Hm & Hl & Hc & Hd & Ht).
    destruct (Device_Write E (device wr) b _) as [[] w'|pk w']; simpl in *;
      repeat (split; [done|]); eexists; (split; [exact Hc|]); by apply Forall_singleton.
  - simpl. repeat (split; [done|]). exists []. by rewrite app_nil_r.
Qed.

Lemma offer_loop_frame lv b ws w :
  let w' := res_world (forRange ws (offer E lv b) w) in
  loggerMap w' = loggerMap w /\ loggers w' = loggers w /\
  lastDate w' = lastDate w /\ lastTime w' = lastTime w /\
  exists tr, calls w' = calls w ++ tr /\ Forall is_dispatch_call tr.
Proof.
  revert w. induction ws as [|wr ws IH]; intros w; simpl.
  - repeat (split; [done|]). exists []. by rewrite app_nil_r.
  - unfold mbind, M_bind.
    pose proof (offer_frame lv b wr w) as (Hm & Hl & Hd & Ht & tr & Hc & Htr).
    destruct (offer E lv b wr w) as [[] w1|pk w1]; simpl in *.
    + destruct (IH w1) as (Hm2 & Hl2 & Hd2 & Ht2 & tr2 & Hc2 & Htr2).
      rewrite Hm2, Hl2, Hd2, Ht2, Hc2, Hc. repeat (split; [done|]).
      exists (tr ++ tr2). split; [by rewrite app_assoc|by apply Forall_app].
    + repeat (split; [done|]). by exists tr.
Qed.

Lemma offer_loop_run lv b ws w :
  Forall (fun wr => (device wr < length (devices w))%nat) ws -> devices_ok w ->
  exists w', forRange ws (offer E lv b) w = Ok tt w' /\
    calls w' = calls w ++ map (fun wr => CDeviceWrite (device wr) b) (accepting lv ws) /\
    devices_ok w' /\ length (devices w') = length (devices w).
Proof.
  revert w. induction ws as [|wr ws IH]; intros w Hws Hok; simpl.
  - exists w. by rewrite app_nil_r.
  - apply Forall_cons in Hws as [Hwr Hws]. unfold mbind, M_bind, accepting.
    rewrite filter_cons. unfold offer at 1.
    destruct (Z.geb_spec lv (level wr)) as [Hge|Hlt].
    + rewrite decide_True by lia. unfold mbind, M_bind, call, modify.
      destruct (Device_Write_ok (device wr) b (add_call (CDeviceWrite (device wr) b) w))
        as (w1 & Hrun & Hok1 & Hlen1); [done|done|].
      rewrite Hrun.
      pose proof (Device_Write_frame (device wr) b (add_call (CDeviceWrite (device wr) b) w))
        as (_ & _ & Hc1 & _). rewrite Hrun in Hc1. simpl in Hc1.
      destruct (IH w1) as (w2 & Hrun2 & Hc2 & Hok2 & Hlen2); [|done|].
      { eapply Forall_impl; [exact Hws|]. intros x. simpl. rewrite Hlen1. done. }
      exists w2. split; [done|]. rewrite Hc2, Hc1. simpl.
      split; [by rewrite <- app_assoc|]. split; [done|]. by rewrite Hlen2, Hlen1.
    + rewrite decide_False by lia. simpl. by apply IH.
Qed.

Lemma Write_unfold amb l lv fmt a w log :
  loggers w !! l = Some log ->
  Write E amb l lv fmt a w =
  if lv <? minLevel log then Ok tt w
  else
    match forRange (writers log)
            (offer E lv (Format (format log) amb lv (rendered E fmt a)))
            (add_call (CFormat lv (rendered E fmt a)) w) with
    | Ok _ w' => Ok tt (add_call CBuffsPut w')
    | Panic pk w' => Panic pk w'
    end.
Proof.
  intros Hl. unfold Write, mbind, M_bind, load_logger. rewrite Hl.
  destruct (lv <? minLevel log); [done|]. reflexivity.
Qed.


Lemma Write_run amb l lv fmt a w log :
  loggers w !! l = Some log ->
  Forall (fun wr => (device wr < length (devices w))%nat) (writers log) ->
  devices_ok w ->
  exists w', Write E amb l lv fmt a w = Ok tt w' /\
    calls w' = calls w ++ dispatch E amb log lv fmt a /\
    devices_ok w' /\ length (devices w') = length (devices w).
Proof.
  intros Hl Hws Hok. rewrite (Write_unfold _ _ _ _ _ _ _ Hl). unfold dispatch.
  destruct (lv <? minLevel log).
  - exists w. by rewrite app_nil_r.
  - destruct (offer_loop_run lv (Format (format log) amb lv (rendered E fmt a))
                (writers log) (add_call (CFormat lv (rendered E fmt a)) w))
      as (w1 & -> & Hc & Hok1 & Hlen); [done|done|].
    eexists. split; [reflexivity|]. simpl. rewrite Hc. simpl.
    split; [|done]. by rewrite <- !app_assoc.
Qed.

(** [Logger.Write] leaves the registry, the loggers and the clock as they
    are, whatever its outcome, and makes dispatch calls only. *)
Lemma Write_frame amb l lv fmt a w :
  let w' := res_world (Write E amb l lv fmt a w) in
  loggerMap w' = loggerMap w /\ loggers w' = loggers w /\
  lastDate w' = lastDate w /\ lastTime w' = lastTime w /\
  exists tr, calls w' = calls w ++ tr /\ Forall is_dispatch_call tr.
Proof.
  assert (Hnil : exists tr, calls w = calls w ++ tr /\ Forall is_dispatch_call tr).
  { exists []. by rewrite app_nil_r. }
  destruct (loggers w !! l) as [log|] eqn:Hl.
  2: { unfold Write, mbind, M_bind, load_logger. by rewrite Hl. }
  rewrite (Write_unfold _ _ _ _ _ _ _ Hl).
  destruct (lv <? minLevel log); [done|].
  pose proof (offer_loop_frame lv (Format (format log) amb lv (rendered E fmt a))
                (writers log) (add_call (CFormat lv (rendered E fmt a)) w))
    as (Hm & Hlg & Hd & Ht & tr & Hc & Htr).
  destruct (forRange _ _ _) as [[] w1|pk w1]; simpl in *;
    repeat (split; [done|]).
  - exists ([CFormat lv (rendered E fmt a)] ++ tr ++ [CBuffsPut]).
    rewrite Hc, <- !app_assoc. split; [done|].
    apply Forall_app. split; [by apply Forall_singleton|].
    apply Forall_app. split; [done|by apply Forall_singleton].
  - exists ([CFormat lv (rendered E fmt a)] ++ tr).
    rewrite Hc, <- !app_assoc. split; [done|].
    apply Forall_app. split; [by apply Forall_singleton|done].
Qed.

Lemma Device_Write_devices_ok d p w :
  devices_ok w ->
  let w' := res_world (Device_Write E d p w) in
  devices_ok w' /\ length (devices w') = length (devices w).
Proof.
  intros Hok. unfold Device_Write.
  destruct (devices w !! d) as [dev|] eqn:Hdev; [|done].
  assert (Hdv : dev_ok dev) by (by eapply Forall_lookup_1).
  destruct (DeviceObj_Write_ok (lastDate w) dev p Hdv) as (dev' & tr & -> & Hok').
  unfold devices_ok. simpl. split; [by apply Forall_insert|by rewrite length_insert].
Qed.

Lemma offer_loop_devices_ok lv b ws w :
  devices_ok w ->
  let w' := res_world (forRange ws (offer E lv b) w) in
  devices_ok w' /\ length (devices w') = length (devices w).
Proof.
  revert w. induction ws as [|wr ws IH]; intros w Hok; simpl; [done|].
  unfold mbind, M_bind.
  assert (H1 : let w1 := res_world (offer E lv b wr w) in
               devices_ok w1 /\ length (devices w1) = length (devices w)).
  { unfold offer. destruct (lv >=? level wr); [|done].
    unfold mbind, M_bind, call, modify.
    apply (Device_Write_devices_ok (device wr) b (add_call (CDeviceWrite (device wr) b) w)).
    done. }
  destruct (offer E lv b wr w) as [[] w1|pk w1]; simpl in *; [|done].
  destruct H1 as [Hok1 Hlen1]. destruct (IH w1 Hok1) as [Hok2 Hlen2].
  split; [done|]. by rewrite Hlen2.
Qed.

Lemma Write_devices_ok amb l lv fmt a w :
  devices_ok w ->
  let w' := res_world (Write E amb l lv fmt a w) in
  devices_ok w' /\ length (devices w') = length (devices w).
Proof.
  intros Hok. destruct (loggers w !! l) as [log|] eqn:Hl.
  2: { unfold Write, mbind, M_bind, load_logger. by rewrite Hl. }
  rewrite (Write_unfold _ _ _ _ _ _ _ Hl).
  destruct (lv <? minLevel log); [done|].
  pose proof (offer_loop_devices_ok lv (Format (format log) amb lv (rendered E fmt a))
                (writers log) (add_call (CFormat lv (rendered E fmt a)) w) Hok) as H.
  by destruct (forRange _ _ _) as [[] w1|pk w1].
Qed.

Lemma same_store_trans w1 w2 w3 : same_store w1 w2 -> same_store w2 w3 -> same_store w1 w3.
Proof. intros (Hm & Hl & Hd) (Hm' & Hl' & Hd'). unfold same_store. by rewrite Hm', Hl', Hd'. Qed.

Lemma Flush_same l w : same_store w (res_world (Flush l w)).
Proof.
  unfold Flush, mbind, M_bind, load_logger.
  destruct (loggers w !! l) as [log|]; [|done].
  generalize (writers log). intros ws. revert w.
  induction ws as [|wr ws IH]; intros w; simpl; [done|].
  unfold mbind, M_bind, call, modify, Device_Flush. simpl.
  destruct (devices w !! device wr) as [dev|]; [|done].
  eapply same_store_trans; [|apply IH]. done.
Qed.

(** ** All reachable worlds *)

Lemma registry_ok_same w w' : same_store w w' -> registry_ok w -> registry_ok w'.
Proof.
  intros Hs (Hwf & Hdev & Hdef). split; [by eapply registry_wf_same|].
  split; [by eapply devices_ok_same|]. destruct Hs as (-> & _). done.
Qed.

Lemma NewWriter_registry_ok lv dev w :
  registry_ok w -> registry_ok (res_world (NewWriter lv dev w)).
Proof.
  intros Hok. pose proof Hok as (Hwf & Hdev & Hdef).
  assert (H : post (NewWriter lv dev) w (fun _ => registry_ok) registry_ok).
  { apply post_NewWriter; [|done]. intros obj _ Hobj. split; [|split].
    - eapply (registry_wf_extend w _ [] [obj]); [done|done|simpl; by rewrite app_nil_r|done].
    - by apply (devices_ok_snoc w _ obj).
    - done. }
  unfold post in H. by destruct (NewWriter lv dev w).
Qed.

Lemma NewLogger_registry_ok fmt ws w :
  registry_ok w -> registry_ok (res_world (NewLogger fmt ws w)).
Proof.
  intros (Hwf & Hdev & Hdef). unfold NewLogger. simpl. split; [|done].
  eapply (registry_wf_extend w _ [_] []); [done|done|done|simpl; by rewrite app_nil_r].
Qed.

Lemma UpdateLevelAt_registry_ok l w :
  registry_ok w -> registry_ok (res_world (UpdateLevelAt l w)).
Proof.
  intros Hok. pose proof Hok as (Hwf & Hdev & Hdef).
  unfold UpdateLevelAt, mbind, M_bind, load_logger.
  destruct (loggers w !! l) as [log|] eqn:Hl; [|done]. simpl.
  split; [|done]. intros name l0 Hn. simpl in *.
  destruct (Hwf name l0 Hn) as (Hlow & lg & Hlg & Hne & Hws & Hmin). split; [done|].
  destruct (decide (l0 = l)) as [->|Hneq].
  - rewrite list_lookup_insert_eq by (by eapply lookup_lt_Some).
    eexists. split; [done|]. assert (lg = log) as -> by congruence.
    by apply UpdateLevel_wf.
  - rewrite list_lookup_insert_ne by done. by exists lg.
Qed.

Lemma Write_registry_ok amb l lv fmt a w :
  registry_ok w -> registry_ok (res_world (Write E amb l lv fmt a w)).
Proof.
  intros (Hwf & Hdev & Hdef).
  pose proof (Write_frame amb l lv fmt a w) as (Hm & Hl & _).
  pose proof (Write_devices_ok amb l lv fmt a w Hdev) as (Hok & Hlen).
  split; [|split; [done|by rewrite Hm]].
  intros name l0. rewrite Hm, Hl. intros Hn.
  destruct (Hwf name l0 Hn) as (Hlow & lg & Hlg & Hwlg). split; [done|].
  exists lg. split; [done|]. eapply logger_wf_grow; [|done]. by rewrite Hlen.
Qed.

(** Every world a program can reach has a well-formed registry with a
    "default" logger. *)
Lemma reachable_registry_ok w : reachable E w -> registry_ok w.
Proof.
  induction 1 as [w Hrun| | | | | | | |].
  - destruct world0_wf as [Hwf Hdev]. by eapply Init_registry_ok.
  - by apply Init_preserves.
  - by apply SetLevel_registry_ok.
  - by apply NewWriter_registry_ok.
  - by apply NewLogger_registry_ok.
  - by apply UpdateLevelAt_registry_ok.
  - by apply Write_registry_ok.
  - eapply registry_ok_same; [apply Flush_same|done].
  - done.
Qed.

End Dispatch.

(** * The claims *)

(** ** Dispatch *)

Lemma accepting_spec lv ws wr : wr ∈ accepting lv ws <-> wr ∈ ws /\ level wr <= lv.
Proof. unfold accepting. rewrite list_elem_of_filter. tauto. Qed.

Lemma devices_ok_world_app : devices_ok world_app.
Proof.
  unfold devices_ok. change (devices world_app) with
    [Console; Console; createFileDevice "/var/log/app"; Stdout].
  repeat apply List.Forall_cons; try apply List.Forall_nil; try exact I.
  split; [by intros [? [=]]|discriminate].
Qed.



(** C10. [Logger.Write] does not change the logger it is called on, nor
    any other logger, the registry or the cached clock, whether it
    returns or a device panics: the list of writers, their thresholds, the
    cached [minLevel] and the formatter are as before. What it adds to the
    trace of calls are the formatting, deliveries to devices and the
    return of the buffer; a call that gets past the level check and
    returns has returned the buffer last. *)
Theorem Write_leaves_logger (E : Env) (amb : Ambient) (l : nat) (lv : Z) (fmt : string)
    (a : list (Any E)) (w : World) :
  let w' := res_world (Write E amb l lv fmt a w) in
  loggers w' = loggers w /\ loggers w' !! l = loggers w !! l /\
  loggerMap w' = loggerMap w /\
  lastDate w' = lastDate w /\ lastTime w' = lastTime w /\
  (exists tr, calls w' = calls w ++ tr /\ Forall is_dispatch_call tr) /\
  (forall log w'', loggers w !! l = Some log -> minLevel log <= lv ->
     Write E amb l lv fmt a w = Ok tt w'' -> last (calls w'') = Some CBuffsPut).
Proof.
  pose proof (Write_frame E amb l lv fmt a w) as (Hm & Hl & Hd & Ht & Htr).
  simpl. rewrite Hl. repeat (split; [done|]).
  intros log w'' Hlog Hge. rewrite (Write_unfold E _ _ _ _ _ _ _ Hlog).
  destruct (Z.ltb_spec lv (minLevel log)); [lia|].
  destruct (forRange _ _ _) as [[] w1|pk w1]; [|done].
  intros [= <-]. simpl. apply last_snoc.
Qed.

Lemma Write_leaves_logger_witness :
  last (calls (res_world (Write env0 amb0 1 WARN "x" [] world_app))) = Some CBuffsPut.
Proof.
  pose proof (Write_leaves_logger env0 amb0 1 WARN "x" [] world_app) as H.
  cbv zeta in H. destruct H as (_ & _ & _ & _ & _ & _ & H).
  apply (H (mkLogger DEBUG (DefaultFormatter env0) [mkWriter DEBUG 1; mkWriter ERROR 2])).
  - reflexivity.
  - unfold DEBUG, WARN. simpl. lia.
  - reflexivity.
Defined.

(** ** The place of DISABLE in the order *)




(** ** The cached level *)

(** C2, as the claim has it, fails for a logger all of whose thresholds
    exceed DISABLE: [NewLogger] over the one writer made by
    [NewWriter(FATAL, "console")] caches DISABLE, while the minimum of the
    thresholds is FATAL. *)
Lemma minLevel_capped_counterexample :
  ~ (forall (fmt : Formatter) (ws : list Writer) (w : World) (l : nat) (w' : World),
       NewLogger fmt ws w = Ok l w' ->
       exists log, loggers w' !! l = Some log /\
         minLevel log = min_threshold (writers log)).
Proof.
  intros H.
  destruct (H (DefaultFormatter env0) [mkWriter FATAL 1]
              (res_world (NewWriter FATAL "console" world_init)) _ _ eq_refl)
    as (log & Hlog & Hmin).
  vm_compute in Hlog. injection Hlog as <-. vm_compute in Hmin. discriminate.
Qed.

Lemma reachable_cached E w :
  reachable E w ->
  forall name l, loggerMap w !! name = Some l ->
    exists log, loggers w !! l = Some log /\
      minLevel log = min_threshold (writers log) /\ UpdateLevel log = log.
Proof.
  intros Hr name l Hn. apply reachable_registry_ok in Hr as (Hwf & _ & _).
  destruct (Hwf name l Hn) as (_ & log & Hlog & Hne & Hws & Hmin).
  exists log. split; [done|]. split; [done|].
  apply Logger_eq; [|apply UpdateLevel_format|apply UpdateLevel_writers].
  rewrite UpdateLevel_minLevel, Hmin. apply Z.min_r, min_threshold_le; [done|].
  eapply Forall_impl; [exact Hws|]. by intros wr [_ [_ ?]].
Qed.

(** C2, amended. [UpdateLevel] sets [minLevel] to the smaller of DISABLE
    and the minimum of the writers' thresholds (DISABLE for no writer),
    keeps writers and formatter, and doing it again changes nothing;
    [NewLogger] returns a logger so updated. The loggers of the registry
    have writers whose thresholds come from [getLevelFromStr] and never
    exceed DISABLE: in every world a program reaches, after [Init] or a
    [SetLevel] that returned no error, each registered logger caches
    exactly the minimum of its writers' thresholds. *)
Theorem minLevel_recomputed (E : Env) (w : World) :
  reachable E w ->
  (forall log,
     minLevel (UpdateLevel log) = Z.min DISABLE (min_threshold (writers log)) /\
     (writers log = [] -> minLevel (UpdateLevel log) = DISABLE) /\
     writers (UpdateLevel log) = writers log /\
     format (UpdateLevel log) = format log /\
     UpdateLevel (UpdateLevel log) = UpdateLevel log) /\
  (forall fmt ws, exists log,
     NewLogger fmt ws w = Ok (length (loggers w)) (set_loggers (loggers w ++ [log]) w) /\
     writers log = ws /\ format log = fmt /\
     minLevel log = Z.min DISABLE (min_threshold ws)) /\
  (forall l log, loggers w !! l = Some log ->
     UpdateLevelAt l w = Ok tt (set_loggers (<[l := UpdateLevel log]> (loggers w)) w)) /\
  (forall cfg w', Init E cfg w = Ok tt w' ->
     forall name l, loggerMap w' !! name = Some l ->
       exists log, loggers w' !! l = Some log /\
         minLevel log = min_threshold (writers log) /\ UpdateLevel log = log) /\
  (forall name index lvl w', SetLevel name index lvl w = Ok None w' ->
     forall name' l, loggerMap w' !! name' = Some l ->
       exists log, loggers w' !! l = Some log /\
         minLevel log = min_threshold (writers log) /\ UpdateLevel log = log).
Proof.
  intros Hr. split; [|split; [|split; [|split]]].
  - intros log. split; [apply UpdateLevel_minLevel|].
    split; [|split; [apply UpdateLevel_writers|split;
      [apply UpdateLevel_format|apply UpdateLevel_idem]]].
    intros Hnil. rewrite UpdateLevel_minLevel, Hnil. done.
  - intros fmt ws. exists (UpdateLevel (mkLogger 0 fmt ws)).
    split; [done|]. rewrite UpdateLevel_writers, UpdateLevel_format, UpdateLevel_minLevel.
    done.
  - intros l log Hl. unfold UpdateLevelAt, mbind, M_bind, load_logger. by rewrite Hl.
  - intros cfg w' Hrun. apply (reachable_cached E).
    pose proof (reach_Init E cfg w Hr) as Hr'. by rewrite Hrun in Hr'.
  - intros name index lvl w' Hrun. apply (reachable_cached E).
    pose proof (reach_SetLevel E name index lvl w Hr) as Hr'. by rewrite Hrun in Hr'.
Qed.

Lemma minLevel_recomputed_witness :
  exists log, loggers world_app !! 1%nat = Some log /\
    minLevel log = min_threshold (writers log) /\ UpdateLevel log = log.
Proof.
  destruct (minLevel_recomputed env0 world_init) as (_ & _ & _ & H & _).
  - apply reach_start. vm_compute. reflexivity.
  - apply (H [mkDefine "App" "debug" "console";
              mkDefine "app" "error" "file:/var/log/app";
              mkDefine "off" "disable" "stdout"] world_app) with (name := "app").
    + vm_compute. reflexivity.
    + vm_compute. reflexivity.
Defined.

(** ** [SetLevel] *)

(** What [SetLevel] does for a registered name and an index below the
    number of writers. *)
Lemma SetLevel_below_minus1 name index lvl w l log :
  loggerMap w !! name = Some l -> loggers w !! l = Some log -> index < -1 ->
  exists w', SetLevel name index lvl w =
             Panic (IndexOutOfRange index (Z.of_nat (length (writers log)))) w' /\
    same_store w w'.
Proof.
  intros Hn Hl Hi.
  destruct (SetLevel_run name index lvl w l log Hn Hl) as (v & w1 & _ & _ & Hs & _ & ->);
    [lia|].
  exists w1. split; [|done].
  destruct (Z.eqb_spec index (-1)); [lia|]. destruct (Z.leb_spec 0 index); [lia|done].
Qed.

Lemma SetLevel_minus1_unchanged name lvl w l log :
  loggerMap w !! name = Some l -> loggers w !! l = Some log ->
  UpdateLevel log = log ->
  exists w', SetLevel name (-1) lvl w = Ok None w' /\ loggers w' = loggers w.
Proof.
  intros Hn Hl Hup.
  destruct (SetLevel_run name (-1) lvl w l log Hn Hl) as (v & w1 & _ & _ & Hs & _ & ->);
    [lia|].
  eexists. split; [reflexivity|]. simpl. destruct Hs as (_ & -> & _).
  rewrite Hup. by apply list_insert_id.
Qed.

(** C3, at the failing input. With "default" registered with one writer,
    [SetLevel("default", -2, "info")] passes the check
    [index >= len(log.writers)], is not the case [index == -1], and panics
    at [log.writers[index]]: no error value is returned. *)
Theorem SetLevel_negative_index_panics :
  SetLevel "default" (-2) "info" world_init = Panic (IndexOutOfRange (-2) 1) world_init.
Proof. vm_compute. reflexivity. Qed.

(** C4, at the failing input. The logger "app" has writers with the
    thresholds DEBUG and ERROR. [SetLevel("app", -1, "warn")] returns no
    error and leaves both thresholds and the cached level as they were;
    with the index 0 the first threshold becomes WARN. *)
Theorem SetLevel_all_changes_nothing :
  let w' := res_world (SetLevel "app" (-1) "warn" world_app) in
    SetLevel "app" (-1) "warn" world_app = Ok None w' /\
    loggers w' = loggers world_app /\
    (writers <$> loggers w' !! 1%nat) = Some [mkWriter DEBUG 1; mkWriter ERROR 2] /\
    (minLevel <$> loggers w' !! 1%nat) = Some DEBUG /\
    (writers <$> loggers (res_world (SetLevel "app" 0 "warn" world_app)) !! 1%nat)
      = Some [mkWriter WARN 1; mkWriter ERROR 2].
Proof. vm_compute. repeat split. Qed.

(** ** The registry *)

Lemma reachable_world_app : reachable env0 world_app.
Proof. apply (reach_Init env0 _ world_init), reach_start. vm_compute. reflexivity. Qed.

(** C5, as the claim has it, fails: [GetLogger] does not normalize the
    case of its argument. After [Init] has registered the definition named
    "App" under the lower-cased name "app" (address 1), [GetLogger("App")]
    finds no entry and returns the "default" logger (address 0), although
    the case-normalized name is registered. *)
Lemma GetLogger_case_counterexample :
  ~ (forall (w : World) (name : string) (l : nat),
       reachable env0 w -> loggerMap w !! ToLower name = Some l ->
       GetLogger name w = Some l).
Proof.
  intros H.
  specialize (H world_app "App" 1%nat reachable_world_app).
  assert (Hreg : loggerMap world_app !! ToLower "App" = Some 1%nat)
    by (vm_compute; reflexivity).
  specialize (H Hreg). vm_compute in H. discriminate.
Qed.

(** C5, amended. In every world a program reaches, [GetLogger] returns a
    pointer to a logger, never [nil]: the logger registered under exactly
    the given string when there is one, and the "default" logger
    otherwise, so that an unregistered name gives the same pointer as
    "default". The names of the registry are in lower case ([Init]
    lower-cases them) and [GetLogger] compares its argument as it is: a
    name with an upper-case letter gives "default". *)
Theorem GetLogger_total (E : Env) (w : World) (name : string) :
  reachable E w ->
  exists l log, GetLogger name w = Some l /\ loggers w !! l = Some log /\
    (forall l', loggerMap w !! name = Some l' -> l = l' /\ ToLower name = name) /\
    (loggerMap w !! name = None -> GetLogger name w = GetLogger "default" w) /\
    (ToLower name <> name -> GetLogger name w = GetLogger "default" w).
Proof.
  intros Hr. apply reachable_registry_ok in Hr as (Hwf & _ & [d Hd]).
  unfold GetLogger. rewrite Hd.
  destruct (loggerMap w !! name) as [l|] eqn:Hn.
  - destruct (Hwf name l Hn) as (Hlow & log & Hlog & _).
    exists l, log. repeat split; try done; congruence.
  - destruct (Hwf "default" d Hd) as (_ & log & Hlog & _).
    exists d, log. repeat split; done.
Qed.

Lemma GetLogger_total_witness :
  exists l log, GetLogger "nonexistent" world_app = Some l /\
    loggers world_app !! l = Some log /\
    (forall l', loggerMap world_app !! "nonexistent" = Some l' ->
       l = l' /\ ToLower "nonexistent" = "nonexistent") /\
    (loggerMap world_app !! "nonexistent" = None ->
       GetLogger "nonexistent" world_app = GetLogger "default" world_app) /\
    (ToLower "nonexistent" <> "nonexistent" ->
       GetLogger "nonexistent" world_app = GetLogger "default" world_app).
Proof.
  apply (GetLogger_total env0 world_app "nonexistent").
  exact reachable_world_app.
Defined.

(** C9. Whatever definitions [Init] is given, once it has completed the
    registry has a logger named "default"; from a well-formed registry
    the result is well formed. When the registry had no "default" and no
    definition is named "default" (in any case of letters), the logger is
    the one [Init] makes: a single writer with threshold DEBUG over a new
    console device. [Init] completes on the empty list, and on any list
    whose kinds of device are all known. *)
Theorem Init_default_logger (E : Env) (cfg : list LoggerDefine) (w w' : World) :
  Init E cfg w = Ok tt w' ->
  is_Some (loggerMap w' !! "default") /\
  (registry_wf w -> devices_ok w -> registry_ok w') /\
  (loggerMap w !! "default" = None -> "default" ∉ map def_name cfg ->
     exists l d, loggerMap w' !! "default" = Some l /\
       loggers w' !! l = Some (mkLogger DEBUG (DefaultFormatter E) [mkWriter DEBUG d]) /\
       devices w' !! d = Some Console) /\
  (exists w1, Init E [] w = Ok tt w1) /\
  (registry_wf w -> devices_ok w -> Forall def_known cfg ->
     exists w1, Init E cfg w = Ok tt w1).
Proof.
  intros Hrun. split; [|split; [|split; [|split]]].
  - exact (post_Ok _ _ _ _ _ _ (Init_has_default E cfg w) Hrun).
  - intros Hwf Hdev. by eapply Init_registry_ok.
  - by apply Init_creates_default.
  - rewrite Init_nil. destruct (loggerMap w !! "default"); by eexists.
  - by apply Init_completes.
Qed.

Lemma Init_default_logger_witness :
  is_Some (loggerMap world_init !! "default") /\
  exists l d, loggerMap world_init !! "default" = Some l /\
    loggers world_init !! l
      = Some (mkLogger DEBUG (DefaultFormatter env0) [mkWriter DEBUG d]) /\
    devices world_init !! d = Some Console.
Proof.
  destruct (Init_default_logger env0 [] world0 world_init) as (H1 & _ & H3 & _).
  - vm_compute. reflexivity.
  - split; [exact H1|]. apply H3.
    + reflexivity.
    + apply not_elem_of_nil.
Defined.

(** ** The date and the name of the log file *)

Lemma updateNow_lastDate t w :
  valid_time t ->
  lastDate (res_world (updateNow t w)) = (Year t mod 100) * 10000 + Month t * 100 + Day t.
Proof.
  intros (Hy & Hm & Hd). simpl. unfold uint32.
  rewrite Z.rem_mod_nonneg by lia.
  pose proof (Z.mod_pos_bound (Year t) 100 ltac:(lia)).
  apply Z.mod_small. lia.
Qed.

(** C6. At an instant [t] that a clock can show, [updateNow] caches the
    date [(year % 100) * 10000 + month * 100 + day]. A write to a file
    device then opens no file but the one named [<prefix>-<date>.log], the
    date in decimal without padding; it does open it when no file is open
    or the device had opened its file for another date, and a file that is
    open after the write has that name. *)
Theorem file_named_by_date (E : Env) (t : Time) (w : World) (d : nat)
    (f : FileDevice) (p : bytes) :
  valid_time t -> file_ok f ->
  devices w !! d = Some (File f) ->
  let date := (Year t mod 100) * 10000 + Month t * 100 + Day t in
  let w1 := res_world (updateNow t w) in
  lastDate w1 = date /\
  exists f' tr,
    Device_Write E d p w1
      = Ok tt (set_devices (<[d := File f']> (devices w1)) (add_os tr w1)) /\
    FileDevice_Write E date f p = Some (f', tr) /\
    (forall name, OsOpenFile name ∈ tr -> name = prefix f +:+ "-" +:+ itoa date +:+ ".log") /\
    (file f = None \/ lastdate f <> date ->
       OsOpenFile (prefix f +:+ "-" +:+ itoa date +:+ ".log") ∈ tr) /\
    (forall h, file f' = Some h -> h = prefix f +:+ "-" +:+ itoa date +:+ ".log").
Proof.
  intros Ht Hf Hd date w1.
  assert (Hdate : lastDate w1 = date) by (by apply updateNow_lastDate).
  split; [done|].
  destruct (FileDevice_Write_ok E date f p Hf) as (f' & tr & Hrun & _ & _ & H1 & H2 & H3).
  exists f', tr. unfold Device_Write.
  change (devices w1) with (devices w). rewrite Hd. simpl.
  change (uint32 (Z.rem (Year t) 100 * 10000 + Month t * 100 + Day t)) with (lastDate w1).
  rewrite Hdate, Hrun. simpl. done.
Qed.

Lemma file_named_by_date_witness :
  exists f' tr,
    FileDevice_Write env0 90105 (mkFileDevice None None "/var/log/app" 0) []
      = Some (f', tr) /\
    OsOpenFile "/var/log/app-90105.log" ∈ tr /\
    (forall h, file f' = Some h -> h = "/var/log/app-90105.log").
Proof.
  destruct (file_named_by_date env0 (mkTime 2009 1 5 13 7 9) world_app 2
              (mkFileDevice None None "/var/log/app" 0) [])
    as (_ & f' & tr & _ & Hrun & _ & Hopen & Hname).
  - unfold valid_time. simpl. lia.
  - split; [by intros [? [=]]|discriminate].
  - vm_compute. reflexivity.
  - exists f', tr. split; [exact Hrun|]. split; [|exact Hname].
    apply Hopen. left. reflexivity.
Defined.

(** * Further properties of the package *)

(** ** Strings *)

Lemma string_app_cons c (s t : string) : String c s +:+ t = String c (s +:+ t).
Proof. reflexivity. Qed.

Lemma string_app_assoc (a b c : string) : (a +:+ b) +:+ c = a +:+ (b +:+ c).
Proof.
  induction a as [|x a IH]; [reflexivity|].
  rewrite !string_app_cons. by rewrite IH.
Qed.

Lemma string_length_app (a b : string) :
  String.length (a +:+ b) = (String.length a + String.length b)%nat.
Proof.
  induction a as [|x a IH]; [reflexivity|].
  rewrite string_app_cons. simpl. by rewrite IH.
Qed.

Lemma string_get_app_r (a b : string) i :
  String.get (String.length a + i) (a +:+ b) = String.get i b.
Proof.
  induction a as [|x a IH]; [reflexivity|].
  rewrite string_app_cons. simpl. exact IH.
Qed.

Lemma string_substring_all (b : string) : String.substring 0 (String.length b) b = b.
Proof. induction b as [|x b IH]; [reflexivity|]. simpl. by rewrite IH. Qed.

Lemma string_substring_app (a b : string) :
  String.substring (String.length a) (String.length b) (a +:+ b) = b.
Proof.
  induction a as [|x a IH]; [apply string_substring_all|].
  rewrite string_app_cons. simpl. exact IH.
Qed.

(** ** The names of the levels *)

Lemma level_names_cases (lv : Z) (w : World) :
  exists name c w',
    getLevelStr2 lv w = Ok name w' /\ getLevelStr lv w = Ok c w' /\
    String.get 0 name = Some c /\
    (DEBUG <= lv <= ERROR -> w' = w /\ getLevelFromStr name w = Ok lv w) /\
    (lv = FATAL ->
       w' = w /\ name = "FATAL" /\ result_level (getLevelFromStr name w) = Some INFO) /\
    (lv < DEBUG \/ lv = DISABLE \/ FATAL < lv ->
       name = "INFO" /\
       w' = add_os [Printf ("ERROR: logger level unknown: " +:+ itoa lv +:+ "
")] w).
Proof.
  unfold getLevelStr2, getLevelStr, DEBUG, INFO, WARN, ERROR, DISABLE, FATAL.
  destruct (Z.eqb_spec lv 0) as [->|H0].
  { eexists _, _, _. repeat split; try reflexivity; lia. }
  destruct (Z.eqb_spec lv 1) as [->|H1].
  { eexists _, _, _. repeat split; try reflexivity; lia. }
  destruct (Z.eqb_spec lv 2) as [->|H2].
  { eexists _, _, _. repeat split; try reflexivity; lia. }
  destruct (Z.eqb_spec lv 3) as [->|H3].
  { eexists _, _, _. repeat split; try reflexivity; lia. }
  destruct (Z.eqb_spec lv 5) as [->|H5].
  { eexists _, _, _. repeat split; try reflexivity; lia. }
  eexists _, _, _. repeat split; try reflexivity; lia.
Qed.

(** X1. The word [getLevelStr2] gives for a level starts with the letter
    [getLevelStr] gives. For DEBUG, INFO, WARN and ERROR nothing is
    printed and [getLevelFromStr] reads the word back as the level. For
    FATAL the word is "FATAL", which [getLevelFromStr] does not know and
    reads as INFO. Every other level, DISABLE among them, is reported as
    unknown and shown as "INFO". *)
Theorem level_names_roundtrip (lv : Z) (w : World) :
  exists name c w',
    getLevelStr2 lv w = Ok name w' /\ getLevelStr lv w = Ok c w' /\
    String.get 0 name = Some c /\
    (DEBUG <= lv <= ERROR -> w' = w /\ getLevelFromStr name w = Ok lv w) /\
    (lv = FATAL ->
       w' = w /\ name = "FATAL" /\ result_level (getLevelFromStr name w) = Some INFO) /\
    (lv < DEBUG \/ lv = DISABLE \/ FATAL < lv ->
       name = "INFO" /\
       w' = add_os [Printf ("ERROR: logger level unknown: " +:+ itoa lv +:+ "
")] w).
Proof. apply level_names_cases. Qed.

Lemma level_names_roundtrip_witness :
  exists name c w',
    getLevelStr2 WARN world0 = Ok name w' /\ getLevelStr WARN world0 = Ok c w' /\
    String.get 0 name = Some c /\ w' = world0 /\
    getLevelFromStr name world0 = Ok WARN world0.
Proof.
  destruct (level_names_roundtrip WARN world0) as (name & c & w' & H1 & H2 & H3 & H4 & _).
  destruct H4 as [H4 H5]; [unfold DEBUG, WARN, ERROR; lia|].
  exists name, c, w'. repeat split; assumption.
Defined.

(** ** The default formatter *)

(** What the loop over the caller's file name computes. *)
Lemma caller_scan_spec file n :
  (caller_scan file n = -1 /\
   forall i, (i < n)%nat -> String.get i file <> Some "/"%char) \/
  (exists j, (j < n)%nat /\ caller_scan file n = Z.of_nat j + 1 /\
     String.get j file = Some "/"%char /\
     forall i, (j < i < n)%nat -> String.get i file <> Some "/"%char).
Proof.
  induction n as [|n IH]; simpl.
  - left. split; [done|]. intros i Hi. lia.
  - destruct (String.get n file) as [c|] eqn:Hc.
    + destruct (Ascii.eqb_spec c "/") as [->|Hne].
      * right. exists n. repeat split; [lia|done|]. intros i Hi. lia.
      * destruct IH as [[Hs Hno]|(j & Hj & Hs & Hg & Hno)].
        -- left. split; [done|]. intros i Hi.
           destruct (decide (i = n)) as [->|]; [congruence|]. apply Hno. lia.
        -- right. exists j. repeat split; [lia|done|done|]. intros i Hi.
           destruct (decide (i = n)) as [->|]; [congruence|]. apply Hno. lia.
    + destruct IH as [[Hs Hno]|(j & Hj & Hs & Hg & Hno)].
      * left. split; [done|]. intros i Hi.
        destruct (decide (i = n)) as [->|]; [congruence|]. apply Hno. lia.
      * right. exists j. repeat split; [lia|done|done|]. intros i Hi.
        destruct (decide (i = n)) as [->|]; [congruence|]. apply Hno. lia.
Qed.

Lemma caller_index_negative file : caller_index file < 0 <-> no_inner_slash file.
Proof.
  unfold caller_index, no_inner_slash. destruct (String.length file) as [|n] eqn:Hlen.
  - split; [|lia]. intros _ i Hi. lia.
  - destruct (caller_scan_spec file n) as [[Hs Hno]|(j & Hj & Hs & Hg & Hno)].
    + rewrite Hs. split; [|lia]. intros _ i Hi. apply Hno. lia.
    + rewrite Hs. split; [lia|]. intros H. exfalso. apply (H j); [lia|done].
Qed.

Lemma caller_index_split dir base :
  base <> EmptyString -> no_inner_slash base ->
  caller_index (dir +:+ "/" +:+ base) = Z.of_nat (String.length dir) + 1.
Proof.
  intros Hne Hno. unfold caller_index.
  assert (Hlen : String.length (dir +:+ "/" +:+ base)
                 = S (String.length dir + String.length base)).
  { rewrite !string_length_app. simpl. lia. }
  rewrite Hlen.
  assert (Hb : (0 < String.length base)%nat) by (destruct base; [done|simpl; lia]).
  destruct (caller_scan_spec (dir +:+ "/" +:+ base) (String.length dir + String.length base))
    as [[Hs Hn]|(j & Hj & Hs & Hg & Hn)].
  - exfalso. apply (Hn (String.length dir)); [lia|].
    rewrite <- (Nat.add_0_r (String.length dir)) at 1. by rewrite string_get_app_r.
  - rewrite Hs. destruct (Nat.lt_trichotomy j (String.length dir)) as [Hlt|[->|Hgt]]; [|done|].
    + exfalso. apply (Hn (String.length dir)); [lia|].
      rewrite <- (Nat.add_0_r (String.length dir)) at 1. by rewrite string_get_app_r.
    + exfalso. apply (Hno (j - S (String.length dir))%nat); [lia|].
      rewrite <- Hg.
      replace j with (String.length dir + S (j - S (String.length dir)))%nat at 2 by lia.
      rewrite string_get_app_r. reflexivity.
Qed.

Lemma getLevelStr2_total lv w : exists name w', getLevelStr2 lv w = Ok name w'.
Proof.
  destruct (level_names_cases lv w) as (name & _ & w' & H & _). by exists name, w'.
Qed.

Lemma buffPool_get_empty pool :
  Forall (fun b => b = EmptyString) pool -> buffPool_get pool = (EmptyString, tail pool).
Proof. intros H. destruct H as [|b pool Hb _]; [done|]. simpl. by rewrite Hb. Qed.

(** X2. The line [DefaultFormatter.Format] makes, from a pool whose
    buffers were reset when put back: the time, a space, the word for the
    level, then, when the caller is known and its file name is
    [dir/base] with a non-empty [base] that has no slash before its last
    character, a space, [base], a colon and the line number; then "] ",
    the message and a line feed. Without a caller, the part between the
    level and "] " is absent. *)
Theorem DefaultFormatter_Format_layout (dateTimeStr dir base : string) (line : Z)
    (pool : list string) (lv : Z) (msg : string) (w : World) :
  Forall (fun b => b = EmptyString) pool ->
  base <> EmptyString -> no_inner_slash base ->
  exists name w',
    getLevelStr2 lv w = Ok name w' /\
    DefaultFormatter_Format dateTimeStr (Some (dir +:+ "/" +:+ base, line)) pool lv msg w
      = Ok (dateTimeStr +:+ " " +:+ name +:+ " " +:+ base +:+ ":" +:+ itoa line +:+
            "] " +:+ msg +:+ "
", tail pool) w' /\
    DefaultFormatter_Format dateTimeStr None pool lv msg w
      = Ok (dateTimeStr +:+ " " +:+ name +:+ "] " +:+ msg +:+ "
", tail pool) w'.
Proof.
  intros Hpool Hne Hno.
  destruct (getLevelStr2_total lv w) as (name & w' & Hname).
  exists name, w'. split; [done|].
  unfold DefaultFormatter_Format. rewrite (buffPool_get_empty pool Hpool).
  unfold mbind, M_bind. rewrite Hname. split.
  - rewrite (caller_index_split dir base Hne Hno).
    destruct (Z.ltb_spec (Z.of_nat (String.length dir) + 1) 0); [lia|].
    replace (Z.to_nat (Z.of_nat (String.length dir) + 1))
      with (String.length (dir +:+ "/")) by (rewrite string_length_app; simpl; lia).
    replace (dir +:+ "/" +:+ base) with ((dir +:+ "/") +:+ base)
      by apply string_app_assoc.
    replace (String.length ((dir +:+ "/") +:+ base) - String.length (dir +:+ "/"))%nat
      with (String.length base) by (rewrite (string_length_app (dir +:+ "/")); lia).
    rewrite string_substring_app. unfold mret, M_ret. f_equal. f_equal.
    rewrite !string_app_assoc. reflexivity.
  - unfold mret, M_ret. f_equal. f_equal. rewrite !string_app_assoc. reflexivity.
Qed.

Lemma DefaultFormatter_Format_layout_witness :
  exists name w',
    getLevelStr2 WARN world0 = Ok name w' /\
    DefaultFormatter_Format "2009-01-05 13:07:09.123"
        (Some ("/home/u/src/app" +:+ "/" +:+ "main.go", 42)) [] WARN "disk full" world0
      = Ok ("2009-01-05 13:07:09.123" +:+ " " +:+ name +:+ " " +:+ "main.go" +:+ ":" +:+
            itoa 42 +:+ "] " +:+ "disk full" +:+ "
", tail []) w' /\
    DefaultFormatter_Format "2009-01-05 13:07:09.123" None [] WARN "disk full" world0
      = Ok ("2009-01-05 13:07:09.123" +:+ " " +:+ name +:+ "] " +:+ "disk full" +:+ "
", tail []) w'.
Proof.
  apply (DefaultFormatter_Format_layout "2009-01-05 13:07:09.123" "/home/u/src/app"
           "main.go" 42 [] WARN "disk full" world0).
  - constructor.
  - discriminate.
  - intros i Hi. simpl in Hi.
    do 6 (destruct i as [|i]; [discriminate|]). lia.
Defined.

(** X3. With a caller whose file name has no slash before its last
    character (an empty name, a bare "main.go", a name ending in its only
    slash), [DefaultFormatter.Format] panics at the slice [file[i:]]
    instead of returning a line; with any other file name it returns. *)
Theorem DefaultFormatter_Format_panics (dateTimeStr file : string) (line : Z)
    (pool : list string) (lv : Z) (msg : string) (w : World) :
  no_inner_slash file <->
  result_level (DefaultFormatter_Format dateTimeStr (Some (file, line)) pool lv msg w) = None.
Proof.
  unfold DefaultFormatter_Format. destruct (buffPool_get pool) as [buff pool'].
  unfold mbind, M_bind.
  destruct (getLevelStr2_total lv w) as (name & w' & ->).
  rewrite <- caller_index_negative.
  destruct (Z.ltb_spec (caller_index file) 0) as [Hlt|Hge]; simpl.
  - split; done.
  - split; [lia|discriminate].
Qed.

(** ** Device descriptors *)

Lemma SplitN2_colon kind args :
  no_colon kind -> SplitN2 (kind +:+ ":" +:+ args) = (kind, Some args).
Proof.
  induction kind as [|c kind IH]; intros Hno; [reflexivity|].
  rewrite string_app_cons. simpl.
  destruct (Ascii.eqb_spec c ":") as [->|Hne].
  - exfalso. by apply (Hno 0%nat).
  - rewrite IH; [done|]. intros i. apply (Hno (S i)).
Qed.

Lemma SplitN2_plain kind : no_colon kind -> SplitN2 kind = (kind, None).
Proof.
  induction kind as [|c kind IH]; intros Hno; [reflexivity|]. simpl.
  destruct (Ascii.eqb_spec c ":") as [->|Hne].
  - exfalso. by apply (Hno 0%nat).
  - rewrite IH; [done|]. intros i. apply (Hno (S i)).
Qed.

Lemma deviceMap_lookup kind :
  deviceMap !! kind =
  if decide (kind = "file") then Some createFileDevice
  else if decide (kind = "stdout") then Some createStdoutDevice
  else if decide (kind = "console") then Some createConsoleDevice
  else None.
Proof.
  unfold deviceMap. simpl.
  destruct (decide (kind = "file")) as [->|H1]; [done|].
  rewrite lookup_insert_ne by done.
  destruct (decide (kind = "stdout")) as [->|H2]; [done|].
  rewrite lookup_insert_ne by done.
  destruct (decide (kind = "console")) as [->|H3]; [done|].
  rewrite lookup_insert_ne by done. apply lookup_empty.
Qed.

Lemma NewDevice_cases (kind args : string) (w : World) :
  no_colon kind ->
  let made (obj : DeviceObj) : Res nat :=
    Ok (length (devices w)) (set_devices (devices w ++ [obj]) w) in
  let outcome (a : string) : Res nat :=
    if decide (kind = "file") then made (File (mkFileDevice None None a 0))
    else if decide (kind = "stdout") then made Stdout
    else if decide (kind = "console") then made Console
    else Panic NilFunctionCall w in
  NewDevice (kind +:+ ":" +:+ args) w = outcome args /\
  NewDevice kind w = outcome EmptyString.
Proof.
  intros Hno made outcome. unfold NewDevice, outcome, made.
  rewrite (SplitN2_colon kind args Hno), (SplitN2_plain kind Hno). simpl.
  rewrite deviceMap_lookup.
  destruct (decide (kind = "file")); [done|].
  destruct (decide (kind = "stdout")); [done|].
  destruct (decide (kind = "console")); done.
Qed.

(** X4. [NewDevice] reads a descriptor as the kind before the first colon
    and, after it, arguments that may themselves contain colons; without
    a colon the arguments are empty. The kinds "file", "stdout" and
    "console", spelled in lower case, give a new device at a fresh address
    and leave the existing devices alone (for "file" the arguments become
    the prefix); any other kind panics and no device is made. *)
Theorem NewDevice_descriptor (kind args : string) (w : World) :
  no_colon kind ->
  let made (obj : DeviceObj) : Res nat :=
    Ok (length (devices w)) (set_devices (devices w ++ [obj]) w) in
  let outcome (a : string) : Res nat :=
    if decide (kind = "file") then made (File (mkFileDevice None None a 0))
    else if decide (kind = "stdout") then made Stdout
    else if decide (kind = "console") then made Console
    else Panic NilFunctionCall w in
  NewDevice (kind +:+ ":" +:+ args) w = outcome args /\
  NewDevice kind w = outcome EmptyString.
Proof. apply NewDevice_cases. Qed.

Lemma NewDevice_descriptor_witness :
  NewDevice ("file" +:+ ":" +:+ "/var/log/a:b") world_init
    = Ok 1%nat (set_devices (devices world_init ++
                  [File (mkFileDevice None None "/var/log/a:b" 0)]) world_init) /\
  NewDevice "file" world_init
    = Ok 1%nat (set_devices (devices world_init ++
                  [File (mkFileDevice None None EmptyString 0)]) world_init).
Proof.
  apply (NewDevice_descriptor "file" "/var/log/a:b" world_init).
  intros i. do 4 (destruct i as [|i]; [discriminate|]). discriminate.
Defined.

(** ** What [Init] keeps *)

Section Extends.
Variable E : Env.

Lemma extends_same w w' : same_store w w' -> extends w w'.
Proof.
  intros (Hm & Hl & Hd). unfold extends. rewrite Hm, Hl, Hd. split; [done|]. split.
  - intros l log Hlog. exists log, []. by rewrite app_nil_r.
  - exists []. by rewrite app_nil_r.
Qed.

Lemma extends_trans w1 w2 w3 : extends w1 w2 -> extends w2 w3 -> extends w1 w3.
Proof.
  intros (Hm1 & Hl1 & ds1 & Hd1 & Hf1) (Hm2 & Hl2 & ds2 & Hd2 & Hf2). split; [|split].
  - intros k l Hk. by apply Hm2, Hm1.
  - intros l log Hlog.
    destruct (Hl1 l log Hlog) as (log1 & e1 & Hlog1 & Hw1 & Hfm1).
    destruct (Hl2 l log1 Hlog1) as (log2 & e2 & Hlog2 & Hw2 & Hfm2).
    exists log2, (e1 ++ e2). split; [done|].
    split; [by rewrite Hw2, Hw1, app_assoc|congruence].
  - exists (ds1 ++ ds2). split; [by rewrite Hd2, Hd1, app_assoc|by apply Forall_app].
Qed.

Lemma deviceMap_fresh k create args : deviceMap !! k = Some create -> fresh_dev (create args).
Proof.
  rewrite deviceMap_lookup. unfold fresh_dev.
  repeat case_decide; intros [= <-]; eauto.
Qed.

Lemma post_NewWriter_fresh lv dev w (Q : Writer -> World -> Prop) (R : World -> Prop) :
  (forall obj, fresh_dev obj ->
     Q (mkWriter lv (length (devices w))) (set_devices (devices w ++ [obj]) w)) ->
  R w -> post (NewWriter lv dev) w Q R.
Proof.
  intros HQ HR. unfold NewWriter, NewDevice.
  destruct (SplitN2 dev) as [name rest].
  destruct (deviceMap !! name) as [create|] eqn:Hk; [|done].
  unfold post, mbind, M_bind. apply HQ. by eapply deviceMap_fresh.
Qed.

Lemma post_load_logger_gen l w (Q : Logger -> World -> Prop) (R : World -> Prop) :
  (forall lg, loggers w !! l = Some lg -> Q lg w) -> R w -> post (load_logger l) w Q R.
Proof.
  intros HQ HR. unfold post, load_logger.
  destruct (loggers w !! l) as [lg|] eqn:Hl; [by apply HQ|done].
Qed.

Lemma post_UpdateLevelAt_gen l w (Q : unit -> World -> Prop) (R : World -> Prop) :
  (forall lg, loggers w !! l = Some lg ->
     Q tt (set_loggers (<[l := UpdateLevel lg]> (loggers w)) w)) ->
  R w -> post (UpdateLevelAt l) w Q R.
Proof.
  intros HQ HR. unfold UpdateLevelAt.
  apply post_bind, post_load_logger_gen; [|done].
  intros lg Hlg. apply post_modify. by apply HQ.
Qed.

(** A logger replaced by one with more writers, and a device added. *)
Lemma extends_more_writers w w' l lg lg' obj :
  loggerMap w' = loggerMap w -> loggers w !! l = Some lg ->
  loggers w' = <[l := lg']> (loggers w) ->
  (exists extra, writers lg' = writers lg ++ extra) -> format lg' = format lg ->
  devices w' = devices w ++ [obj] -> fresh_dev obj -> extends w w'.
Proof.
  intros Hm Hl Hl' [extra Hw] Hf Hd Hobj. unfold extends. rewrite Hm, Hl', Hd.
  split; [done|]. split.
  - intros l0 log Hlog. destruct (decide (l0 = l)) as [->|Hne].
    + exists lg', extra. rewrite list_lookup_insert_eq by (by eapply lookup_lt_Some).
      assert (log = lg) as -> by congruence. done.
    + exists log, []. rewrite list_lookup_insert_ne by done. by rewrite app_nil_r.
  - exists [obj]. split; [done|]. by apply Forall_singleton.
Qed.

(** A logger added under a name that was free, and a device added. *)
Lemma extends_new_logger w w' name lg obj :
  loggerMap w !! name = None ->
  loggerMap w' = <[name := length (loggers w)]> (loggerMap w) ->
  loggers w' = loggers w ++ [lg] ->
  devices w' = devices w ++ [obj] -> fresh_dev obj -> extends w w'.
Proof.
  intros Hnone Hm Hl Hd Hobj. unfold extends. rewrite Hm, Hl, Hd. split; [|split].
  - intros k l Hk. rewrite lookup_insert_ne; [done|]. intros ->. congruence.
  - intros l log Hlog. exists log, []. rewrite app_nil_r. split; [|done].
    by apply lookup_app_l_Some.
  - exists [obj]. split; [done|]. by apply Forall_singleton.
Qed.

Lemma Init_define_extends def w :
  post (Init_define E def) w (fun _ w' => extends w w') (extends w).
Proof.
  destruct def as [n lv wr]. unfold Init_define.
  apply post_bind, post_get.
  destruct (loggerMap w !! ToLower n) as [l|] eqn:Hn.
  - apply post_bind, post_getLevelFromStr. intros v w1 Hv Hs Hc.
    pose proof Hs as (Hm1 & Hl1 & Hd1).
    apply post_bind, post_NewWriter_fresh; [|by apply extends_same].
    intros obj Hobj.
    assert (Hpanic : extends w (set_devices (devices w1 ++ [obj]) w1)).
    { unfold extends. simpl. rewrite Hm1, Hl1, Hd1. split; [done|]. split.
      - intros l0 log Hlog. exists log, []. by rewrite app_nil_r.
      - exists [obj]. split; [done|]. by apply Forall_singleton. }
    apply post_bind, post_load_logger_gen; [|done]. simpl. intros lg Hlg.
    apply post_bind, post_modify.
    apply post_UpdateLevelAt_gen.
    2: { simpl. eapply (extends_more_writers w _ l lg _ obj); simpl;
         [done|by rewrite <- Hl1|by rewrite Hl1| |done|by rewrite Hd1|done].
         by eexists. }
    simpl. rewrite list_lookup_insert_eq by (by eapply lookup_lt_Some).
    intros lg' [= <-]. rewrite list_insert_insert_eq.
    eapply (extends_more_writers w _ l lg _ obj); simpl;
      [done|by rewrite <- Hl1|by rewrite Hl1| | |by rewrite Hd1|done].
    + rewrite UpdateLevel_writers. simpl. by eexists.
    + by rewrite UpdateLevel_format.
  - apply post_bind, post_getLevelFromStr. intros v w1 Hv Hs Hc.
    pose proof Hs as (Hm1 & Hl1 & Hd1).
    apply post_bind, post_NewWriter_fresh; [|by apply extends_same].
    intros obj Hobj. unfold NewLogger.
    apply post_bind. unfold post at 1.
    apply post_bind, post_modify.
    assert (Hnew : forall lg,
      extends w (set_loggerMap (<[ToLower n := length (loggers w1)]> (loggerMap w1))
                   (set_loggers (loggers w1 ++ [lg])
                      (set_devices (devices w1 ++ [obj]) w1)))).
    { intros lg. eapply (extends_new_logger w _ (ToLower n) lg obj); simpl;
        [done|by rewrite Hm1, Hl1|by rewrite Hl1|by rewrite Hd1|done]. }
    apply post_UpdateLevelAt_gen; [|by apply Hnew].
    simpl. rewrite lookup_app_r by done. rewrite Nat.sub_diag. simpl.
    intros lg' [= <-].
    replace (<[length (loggers w1) := _]> (loggers w1 ++ [_]))
      with (loggers w1 ++ [UpdateLevel (UpdateLevel
              (mkLogger 0 (DefaultFormatter E) [mkWriter v (length (devices w1))]))]).
    + apply Hnew.
    + symmetry. rewrite <- (Nat.add_0_r (length (loggers w1))) at 1.
      rewrite insert_app_r. reflexivity.
Qed.

Lemma Init_loop_extends cfg w :
  post (forRange cfg (Init_define E)) w (fun _ w' => extends w w') (extends w).
Proof.
  revert w. induction cfg as [|def cfg IH]; intros w; simpl.
  - apply post_ret. by apply extends_same.
  - apply post_bind. eapply post_mono; [apply Init_define_extends| |done].
    intros [] w1 H1. simpl. eapply post_mono; [apply IH| |].
    + intros ? w2 H2. by eapply extends_trans.
    + intros w2 H2. by eapply extends_trans.
Qed.

Lemma Init_extends cfg w : extends w (res_world (Init E cfg w)).
Proof.
  assert (H : post (Init E cfg) w (fun _ w' => extends w w') (extends w)).
  { unfold Init. apply post_bind.
    eapply post_mono; [apply Init_loop_extends| |done].
    intros [] w1 H1. simpl. apply post_bind, post_get.
    destruct (loggerMap w1 !! "default") as [l|] eqn:Hdef; [by apply post_ret|].
    apply post_bind. unfold post at 1. rewrite NewWriter_console.
    unfold NewLogger. apply post_bind. unfold post at 1. apply post_modify.
    eapply extends_trans; [exact H1|].
    eapply (extends_new_logger w1 _ "default" _ Console); simpl; try done.
    unfold fresh_dev. by left. }
  unfold post in H. by destruct (Init E cfg w).
Qed.

End Extends.

(** X5. [Init] never takes anything away, whether it completes or panics
    on an unknown kind of device: every name registered before is still
    registered to the same logger, so a pointer obtained from [GetLogger]
    stays the registered one; every logger keeps its formatter and its
    writers, with their thresholds and devices, new writers coming after
    them; and the devices that existed are as they were. *)
Theorem Init_keeps_everything (E0 : Env) (cfg : list LoggerDefine) (w : World) :
  let w' := res_world (Init E0 cfg w) in
  (forall name l, loggerMap w !! name = Some l ->
     loggerMap w' !! name = Some l /\ GetLogger name w' = Some l) /\
  (forall l log, loggers w !! l = Some log ->
     exists log' extra, loggers w' !! l = Some log' /\
       writers log' = writers log ++ extra /\ format log' = format log) /\
  (exists ds, devices w' = devices w ++ ds).
Proof.
  destruct (Init_extends E0 cfg w) as (Hm & Hl & ds & Hd & _). simpl.
  split; [|split; [done|by exists ds]].
  intros name l Hn. pose proof (Hm name l Hn) as Hn'. split; [done|].
  unfold GetLogger. by rewrite Hn'.
Qed.


Lemma ToLower_app (a b : string) : ToLower (a +:+ b) = ToLower a +:+ ToLower b.
Proof.
  induction a as [|c a IH]; [reflexivity|].
  rewrite string_app_cons. simpl. rewrite IH. reflexivity.
Qed.

Lemma min_threshold_snoc ws wr :
  ws <> [] -> min_threshold (ws ++ [wr]) = Z.min (min_threshold ws) (level wr).
Proof.
  destruct ws as [|a ws]; [done|]. intros _. simpl.
  by rewrite map_app, fold_left_app.
Qed.

Lemma UpdateLevel_single fmt v d m :
  DEBUG <= v <= DISABLE ->
  UpdateLevel (mkLogger m fmt [mkWriter v d]) = mkLogger v fmt [mkWriter v d].
Proof.
  intros Hv. apply Logger_eq.
  - rewrite UpdateLevel_minLevel. simpl. unfold DISABLE in *. lia.
  - by rewrite UpdateLevel_format.
  - by rewrite UpdateLevel_writers.
Qed.

Lemma post_run {A} (m : M A) w a w1 (Q : A -> World -> Prop) (R : World -> Prop) :
  m w = Ok a w1 -> Q a w1 -> post m w Q R.
Proof. intros Hrun HQ. unfold post. by rewrite Hrun. Qed.

Lemma post_returns (m : M unit) w w' :
  post m w (fun _ w1 => w1 = w') (fun _ => False) -> m w = Ok tt w'.
Proof. unfold post. destruct (m w) as [[] w1|]; [by intros ->|done]. Qed.

Section InitCases.
Variable E : Env.

Lemma post_Init_final w1 (Q : unit -> World -> Prop) (R : World -> Prop) :
  is_Some (loggerMap w1 !! "default") -> Q tt w1 ->
  post (w ← get;
        match loggerMap w !! "default" with
        | Some _ => mret tt
        | None =>
            wtr ← NewWriter DEBUG "console";
            log ← NewLogger (DefaultFormatter E) [wtr];
            modify (fun w => set_loggerMap (<["default" := log]> (loggerMap w)) w)
        end) w1 Q R.
Proof. intros [d Hd] HQ. apply post_bind, post_get. by rewrite Hd. Qed.

(** [Init] on one definition whose name is registered. *)
Lemma Init_one_registered n lvl wr w l log :
  loggerMap w !! ToLower n = Some l -> loggers w !! l = Some log ->
  is_Some (loggerMap w !! "default") ->
  exists v w1, getLevelFromStr lvl w = Ok v w1 /\ DEBUG <= v <= DISABLE /\
    same_store w w1 /\
    forall obj, NewDevice (ToLower wr) w1
                = Ok (length (devices w1)) (set_devices (devices w1 ++ [obj]) w1) ->
      Init E [mkDefine n lvl wr] w =
      Ok tt (set_loggers
               (<[l := UpdateLevel (set_writers
                          (writers log ++ [mkWriter v (length (devices w))]) log)]>
                  (loggers w))
               (set_devices (devices w ++ [obj]) w1)).
Proof.
  intros Hn Hl Hdef.
  destruct (getLevelFromStr_range lvl w) as (v & w1 & Hrun & Hv & Hm1 & Hl1 & Hd1 & Hc1).
  exists v, w1. split; [done|]. split; [done|]. split; [done|].
  intros obj Hdev. apply post_returns. unfold Init. simpl.
  apply post_bind, post_bind. unfold Init_define.
  apply post_bind, post_get. rewrite Hn.
  eapply post_bind, post_run; [exact Hrun|].
  eapply post_bind, post_run.
  { unfold NewWriter, mbind, M_bind. rewrite Hdev. reflexivity. }
  eapply post_bind, post_load_logger; [simpl; by rewrite Hl1|].
  apply post_bind, post_modify.
  eapply post_UpdateLevelAt.
  { simpl. rewrite Hl1. apply list_lookup_insert_eq. by eapply lookup_lt_Some. }
  apply post_ret. apply post_Init_final; [simpl; by rewrite Hm1|].
  simpl. by rewrite Hl1, Hd1, list_insert_insert_eq.
Qed.

(** [Init] on one definition whose name is new. *)
Lemma Init_one_new n lvl wr w :
  loggerMap w !! ToLower n = None ->
  (ToLower n = "default" \/ is_Some (loggerMap w !! "default")) ->
  exists v w1, getLevelFromStr lvl w = Ok v w1 /\ DEBUG <= v <= DISABLE /\
    same_store w w1 /\
    forall obj, NewDevice (ToLower wr) w1
                = Ok (length (devices w1)) (set_devices (devices w1 ++ [obj]) w1) ->
      Init E [mkDefine n lvl wr] w =
      Ok tt (set_loggerMap (<[ToLower n := length (loggers w)]> (loggerMap w))
               (set_loggers
                  (loggers w ++ [mkLogger v (DefaultFormatter E)
                                   [mkWriter v (length (devices w))]])
                  (set_devices (devices w ++ [obj]) w1))).
Proof.
  intros Hn Hdef.
  destruct (getLevelFromStr_range lvl w) as (v & w1 & Hrun & Hv & Hm1 & Hl1 & Hd1 & Hc1).
  exists v, w1. split; [done|]. split; [done|]. split; [done|].
  intros obj Hdev. apply post_returns. unfold Init. simpl.
  apply post_bind, post_bind. unfold Init_define.
  apply post_bind, post_get. rewrite Hn.
  eapply post_bind, post_run; [exact Hrun|].
  eapply post_bind, post_run.
  { unfold NewWriter, mbind, M_bind. rewrite Hdev. reflexivity. }
  unfold NewLogger. apply post_bind. unfold post at 1.
  apply post_bind, post_modify.
  eapply post_UpdateLevelAt.
  { simpl. rewrite lookup_app_r by done. by rewrite Nat.sub_diag. }
  apply post_ret. apply post_Init_final.
  { simpl. rewrite Hm1. destruct Hdef as [->|[d Hd]]; [by rewrite lookup_insert_eq|].
    destruct (decide (ToLower n = "default")) as [->|Hne];
      [by rewrite lookup_insert_eq|by rewrite lookup_insert_ne, Hd]. }
  simpl. rewrite UpdateLevel_idem, UpdateLevel_single by done.
  rewrite Hm1, Hl1, Hd1. rewrite list_insert_id; [done|].
  rewrite lookup_app_r by done. by rewrite Nat.sub_diag.
Qed.

End InitCases.

Lemma NewDevice_known dev w :
  known_kind dev ->
  exists obj, NewDevice dev w
              = Ok (length (devices w)) (set_devices (devices w ++ [obj]) w) /\
    fresh_dev obj.
Proof.
  unfold known_kind, NewDevice. destruct (SplitN2 dev) as [kind rest]. simpl.
  intros [create Hc]. rewrite Hc. eexists. split; [reflexivity|].
  by eapply deviceMap_fresh.
Qed.





(** ** More on [SetLevel] *)

(** X8. For a registered name and an index of one of its writers,
    [SetLevel] returns no error and gives that writer the level read from
    the level string (INFO for an unknown word), keeping its device; the
    other writers of the logger, the other loggers, the registry and the
    devices are unchanged, and the cached level of the logger is the
    minimum of its thresholds afterwards. *)
Theorem SetLevel_one_writer (name : string) (index : Z) (lvl : string) (w : World)
    (l : nat) (log : Logger) :
  registry_ok w -> loggerMap w !! name = Some l -> loggers w !! l = Some log ->
  0 <= index < Z.of_nat (length (writers log)) ->
  exists v w' log',
    result_level (getLevelFromStr lvl w) = Some v /\
    SetLevel name index lvl w = Ok None w' /\
    loggers w' !! l = Some log' /\
    (forall i wr, writers log !! i = Some wr ->
       writers log' !! i =
         Some (if decide (i = Z.to_nat index) then mkWriter v (device wr) else wr)) /\
    length (writers log') = length (writers log) /\
    format log' = format log /\
    minLevel log' = min_threshold (writers log') /\
    (forall l0, l0 <> l -> loggers w' !! l0 = loggers w !! l0) /\
    loggerMap w' = loggerMap w /\ devices w' = devices w /\ calls w' = calls w.
Proof.
  intros Hok Hn Hl Hi.
  destruct (SetLevel_run name index lvl w l log Hn Hl) as
    (v & w1 & Hrun & Hv & (Hm1 & Hl1 & Hd1) & Hc1 & Hset); [lia|].
  destruct (Z.eqb_spec index (-1)); [lia|].
  destruct (Z.leb_spec 0 index); [|lia].
  pose proof (SetLevel_registry_ok name index lvl w Hok) as Hok'.
  rewrite Hset in Hok'. simpl in Hok'.
  eexists v, _, _. split; [by rewrite Hrun|]. split; [exact Hset|]. simpl.
  assert (Hlt : (l < length (loggers w1))%nat).
  { rewrite Hl1. by eapply lookup_lt_Some. }
  split; [by apply list_lookup_insert_eq|].
  rewrite UpdateLevel_writers, UpdateLevel_format. simpl.
  split; [|split; [by rewrite length_alter|split; [done|split]]].
  - intros i wr Hwr. destruct (decide (i = Z.to_nat index)) as [->|Hne].
    + by rewrite list_lookup_alter_eq, Hwr.
    + by rewrite list_lookup_alter_ne.
  - destruct Hok' as (Hwf' & _).
    destruct (Hwf' name l) as (_ & lg & Hlg & _ & _ & Hmin); [simpl; by rewrite Hm1|].
    simpl in Hlg. rewrite list_lookup_insert_eq in Hlg by done.
    injection Hlg as <-. by rewrite UpdateLevel_writers in Hmin.
  - split; [|done]. intros l0 Hne. by rewrite list_lookup_insert_ne, Hl1.
Qed.

Lemma SetLevel_one_writer_witness :
  exists v w' log',
    result_level (getLevelFromStr "warn" world_app) = Some v /\
    SetLevel "app" 0 "warn" world_app = Ok None w' /\
    loggers w' !! 1%nat = Some log' /\
    (forall i wr, [mkWriter DEBUG 1; mkWriter ERROR 2] !! i = Some wr ->
       writers log' !! i =
         Some (if decide (i = Z.to_nat 0) then mkWriter v (device wr) else wr)) /\
    length (writers log') = 2%nat /\
    format log' = DefaultFormatter env0 /\
    minLevel log' = min_threshold (writers log') /\
    (forall l0, l0 <> 1%nat -> loggers w' !! l0 = loggers world_app !! l0) /\
    loggerMap w' = loggerMap world_app /\ devices w' = devices world_app /\
    calls w' = calls world_app.
Proof.
  apply (SetLevel_one_writer "app" 0 "warn" world_app 1
           (mkLogger DEBUG (DefaultFormatter env0) [mkWriter DEBUG 1; mkWriter ERROR 2])).
  - apply (reachable_registry_ok env0), reachable_world_app.
  - vm_compute. reflexivity.
  - vm_compute. reflexivity.
  - simpl. lia.
Defined.

(** X9. The two errors of [SetLevel]: it returns [ErrNameNotFound]
    exactly when the name, as given, is not in the registry, and for a
    registered name [ErrIndexOutOfBound] exactly when the index is at
    least the number of writers. With either error the level string has
    not been read, one line has been printed, and the registry, the
    loggers and the devices are unchanged. *)
Theorem SetLevel_errors (name : string) (index : Z) (lvl : string) (w : World) :
  registry_wf w ->
  let r := SetLevel name index lvl w in
  (result_level r = Some (Some ErrNameNotFound) <-> loggerMap w !! name = None) /\
  (forall l log, loggerMap w !! name = Some l -> loggers w !! l = Some log ->
     (result_level r = Some (Some ErrIndexOutOfBound)
      <-> Z.of_nat (length (writers log)) <= index)) /\
  (forall e, result_level r = Some (Some e) ->
     same_store w (res_world r) /\ calls (res_world r) = calls w /\
     exists line, os (res_world r) = os w ++ [Printf line]).
Proof.
  intros Hwf r. unfold r. clear r.
  destruct (loggerMap w !! name) as [l|] eqn:Hn.
  2: { rewrite SetLevel_unregistered by done. simpl. repeat split; try done.
       by eexists. }
  destruct (Hwf _ _ Hn) as (_ & log & Hl & _).
  destruct (Z.le_gt_cases (Z.of_nat (length (writers log))) index) as [Hi|Hi].
  { erewrite SetLevel_exceed by done. simpl. split; [split; discriminate|]. split.
    - intros l0 log0 [= <-] Hl0. assert (log0 = log) as -> by congruence. done.
    - intros e _. repeat split; try done. by eexists. }
  destruct (SetLevel_run name index lvl w l log Hn Hl) as
    (v & w1 & _ & _ & _ & _ & ->); [lia|].
  assert (Hnone : forall e,
    result_level
      (if index =? -1
       then Ok (@None Error) (set_loggers (<[l:=UpdateLevel log]> (loggers w1)) w1)
       else if 0 <=? index
            then Ok (@None Error) (set_loggers
                   (<[l:=UpdateLevel (set_writers
                          (alter (set_level v) (Z.to_nat index) (writers log)) log)]>
                      (loggers w1)) w1)
            else Panic (IndexOutOfRange index (Z.of_nat (length (writers log)))) w1)
    <> Some (Some e)).
  { intros e. destruct (index =? -1); [done|]. by destruct (0 <=? index). }
  split; [split; [intros H; by apply Hnone in H|discriminate]|]. split.
  - intros l0 log0 [= <-] Hl0. assert (log0 = log) as -> by congruence.
    split; [intros H; by apply Hnone in H|lia].
  - intros e H. by apply Hnone in H.
Qed.

Lemma SetLevel_errors_witness :
  result_level (SetLevel "App" 0 "warn" world_app) = Some (Some ErrNameNotFound).
Proof.
  destruct (SetLevel_errors "App" 0 "warn" world_app) as ([_ H] & _).
  - apply (reachable_registry_ok env0), reachable_world_app.
  - apply H. vm_compute. reflexivity.
Defined.

(** ** [Logger.Flush] *)

Lemma Flush_loop ws w :
  Forall (fun wr => (device wr < length (devices w))%nat) ws ->
  exists w',
    forRange ws (fun writer =>
      call (CDeviceFlush (device writer)) ;; Device_Flush (device writer)) w = Ok tt w' /\
    same_store w w' /\ lastDate w' = lastDate w /\ lastTime w' = lastTime w /\
    calls w' = calls w ++ map (fun wr => CDeviceFlush (device wr)) ws /\
    os w' = os w ++
      flat_map (fun wr => from_option DeviceObj_Flush [] (devices w !! device wr)) ws.
Proof.
  revert w. induction ws as [|wr ws IH]; intros w Hws; simpl.
  - exists w. by rewrite !app_nil_r.
  - apply Forall_cons in Hws as [Hwr Hws].
    destruct (lookup_lt_is_Some_2 _ _ Hwr) as [dev Hdev].
    unfold mbind, M_bind, call, modify, Device_Flush. simpl. rewrite Hdev.
    destruct (IH (add_os (DeviceObj_Flush dev) (add_call (CDeviceFlush (device wr)) w)))
      as (w' & Hrun & (Hm & Hl & Hd) & Hdt & Htm & Hc & Hos); [done|].
    exists w'. split; [exact Hrun|]. simpl in *.
    rewrite Hc, Hos, <- !app_assoc. done.
Qed.

Lemma Flush_run (l : nat) (w : World) (log : Logger) :
  loggers w !! l = Some log ->
  Forall (fun wr => (device wr < length (devices w))%nat) (writers log) ->
  exists w', Flush l w = Ok tt w' /\
    same_store w w' /\ lastDate w' = lastDate w /\ lastTime w' = lastTime w /\
    calls w' = calls w ++ map (fun wr => CDeviceFlush (device wr)) (writers log) /\
    os w' = os w ++
      flat_map (fun wr =>
        match devices w !! device wr with
        | Some (File f) => match writer f with Some t => [BufFlush t] | None => [] end
        | Some Stdout => [BufFlush ToStdout]
        | _ => []
        end) (writers log).
Proof.
  intros Hl Hws. destruct (Flush_loop (writers log) w Hws)
    as (w' & Hrun & Hs & Hd & Ht & Hc & Hos).
  exists w'. unfold Flush, mbind at 1, M_bind, load_logger. rewrite Hl.
  split; [exact Hrun|]. repeat (split; [done|]). rewrite Hos. reflexivity.
Qed.

(** X10. [Logger.Flush] on a logger whose writers hold devices: it
    returns, having called [Flush] once on the device of every writer, in
    the order of the list and whatever the thresholds and the cached
    level are. A stdout device flushes its buffer, a file device the
    buffer of the file it last opened, a console device does nothing. No
    logger, device or registry entry changes. *)
Theorem Flush_all_devices (l : nat) (w : World) (log : Logger) :
  loggers w !! l = Some log ->
  Forall (fun wr => (device wr < length (devices w))%nat) (writers log) ->
  exists w', Flush l w = Ok tt w' /\
    same_store w w' /\ lastDate w' = lastDate w /\ lastTime w' = lastTime w /\
    calls w' = calls w ++ map (fun wr => CDeviceFlush (device wr)) (writers log) /\
    os w' = os w ++
      flat_map (fun wr =>
        match devices w !! device wr with
        | Some (File f) => match writer f with Some t => [BufFlush t] | None => [] end
        | Some Stdout => [BufFlush ToStdout]
        | _ => []
        end) (writers log).
Proof. apply Flush_run. Qed.

Lemma Flush_all_devices_witness :
  exists w', Flush 1 world_app = Ok tt w' /\
    same_store world_app w' /\ lastDate w' = lastDate world_app /\
    lastTime w' = lastTime world_app /\
    calls w' = calls world_app ++ [CDeviceFlush 1; CDeviceFlush 2] /\
    os w' = os world_app ++ [].
Proof.
  apply (Flush_all_devices 1 world_app
           (mkLogger DEBUG (DefaultFormatter env0) [mkWriter DEBUG 1; mkWriter ERROR 2])).
  - vm_compute. reflexivity.
  - repeat constructor.
Defined.

(** ** The calls named after the levels *)

Section LevelCalls.
Variable E : Env.

Lemma Write_registered amb name l lv fmt a w :
  registry_ok w -> loggerMap w !! name = Some l ->
  exists log w', loggers w !! l = Some log /\ logger_wf w log /\
    Write E amb l lv fmt a w = Ok tt w' /\
    calls w' = calls w ++ dispatch E amb log lv fmt a.
Proof.
  intros (Hwf & Hdev & _) Hn.
  destruct (Hwf _ _ Hn) as (_ & log & Hl & Hlog).
  destruct (Write_run E amb l lv fmt a w log Hl) as (w' & Hrun & Hc & _); [|done|].
  { destruct Hlog as (_ & Hws & _). eapply Forall_impl; [exact Hws|]. by intros wr [? _]. }
  by exists log, w'.
Qed.

Lemma accepting_all lv ws : Forall (fun wr => level wr <= lv) ws -> accepting lv ws = ws.
Proof.
  unfold accepting. induction 1 as [|wr ws Hwr _ IH]; [done|].
  rewrite filter_cons, decide_True by done. by rewrite IH.
Qed.

Lemma dispatch_FATAL amb log fmt a w :
  logger_wf w log ->
  dispatch E amb log FATAL fmt a =
    [CFormat FATAL (rendered E fmt a)] ++
    map (fun wr => CDeviceWrite (device wr)
                     (Format (format log) amb FATAL (rendered E fmt a)))
        (writers log) ++
    [CBuffsPut].
Proof.
  intros (Hne & Hws & Hmin). unfold dispatch.
  assert (Hle : Forall (fun wr => level wr <= FATAL) (writers log)).
  { eapply Forall_impl; [exact Hws|]. intros wr [_ [_ ?]]. unfold FATAL, DISABLE in *. lia. }
  assert (minLevel log <= DISABLE).
  { rewrite Hmin. apply min_threshold_le; [done|].
    eapply Forall_impl; [exact Hws|]. by intros wr [_ [_ ?]]. }
  destruct (Z.ltb_spec FATAL (minLevel log)); [unfold FATAL, DISABLE in *; lia|].
  by rewrite accepting_all.
Qed.

End LevelCalls.





(** ** The file device over several writes *)

Lemma itoa_inj z1 z2 : itoa z1 = itoa z2 -> z1 = z2.
Proof.
  unfold itoa. intros H.
  assert (Hnn : forall z, Z.to_int z <> Decimal.Pos Decimal.Nil /\
                          Z.to_int z <> Decimal.Neg Decimal.Nil).
  { intros [|p|p]; simpl; split; try discriminate;
      intros [= Hp]; by apply DecimalPos.Unsigned.to_uint_nonnil in Hp. }
  apply (f_equal NilZero.int_of_string) in H.
  rewrite !NilZero.isi in H by apply Hnn.
  injection H as H. apply (f_equal Z.of_int) in H.
  by rewrite !DecimalZ.of_to in H.
Qed.

Lemma string_app_inj_r (a b c : string) : a +:+ c = b +:+ c -> a = b.
Proof.
  revert b. induction a as [|x a IH]; intros [|y b] H.
  - done.
  - apply (f_equal String.length) in H. rewrite !string_length_app in H.
    simpl in H. lia.
  - apply (f_equal String.length) in H. rewrite !string_length_app in H.
    simpl in H. lia.
  - rewrite !string_app_cons in H. injection H as -> H. f_equal. by apply IH.
Qed.

Lemma log_filename_inj pfx d1 d2 : log_filename pfx d1 = log_filename pfx d2 -> d1 = d2.
Proof.
  unfold log_filename. intros H.
  apply (inj (String.append pfx)) in H. apply (inj (String.append "-")) in H.
  apply string_app_inj_r in H. by apply itoa_inj.
Qed.


Section FileFacts.
Variable E : Env.

(** A write that has to open the file, and can. *)
Lemma FileDevice_Write_opening date f p :
  file_ok f -> (file f = None \/ lastdate f <> date) ->
  OpenFile_err E (log_filename (prefix f) date) = None ->
  FileDevice_Write E date f p =
  Some (mkFileDevice (Some (log_filename (prefix f) date))
                     (Some (ToFile (log_filename (prefix f) date))) (prefix f) date,
        before_open E f (log_filename (prefix f) date) ++
        [OsOpenFile (log_filename (prefix f) date);
         BufWrite (ToFile (log_filename (prefix f) date)) p] ++
        write_report E (ToFile (log_filename (prefix f) date)) p).
Proof.
  destruct f as [fl wr pfx ld]. unfold file_ok, FileDevice_Write, FileDevice_Write_tail,
    before_open, close_report, write_report, log_filename. simpl.
  intros [Hw Hname] Hcase Hopen.
  destruct fl as [h|].
  - destruct Hcase as [[=]|Hd]. destruct wr as [t|]; [|by destruct Hw as [? [=]]].
    rewrite decide_True by done. simpl. rewrite Hopen. simpl.
    destruct (Close_err E h); destruct (stat_IsNotExist E _);
      destruct (Write_err E _ _); reflexivity.
  - destruct (decide (ld <> date)); simpl; rewrite Hopen; simpl; destruct wr;
      destruct (stat_IsNotExist E _); destruct (Write_err E _ _); reflexivity.
Qed.

(** A write that has to open the file, and cannot. *)
Lemma FileDevice_Write_failing date f p e :
  file_ok f -> (file f = None \/ lastdate f <> date) ->
  OpenFile_err E (log_filename (prefix f) date) = Some e ->
  FileDevice_Write E date f p =
  Some (set_file None f,
        before_open E f (log_filename (prefix f) date) ++
        [OsOpenFile (log_filename (prefix f) date);
         Printf ("ERROR: logger cannot open file: " +:+ e +:+ "
")]).
Proof.
  destruct f as [fl wr pfx ld]. unfold file_ok, FileDevice_Write, FileDevice_Write_tail,
    before_open, close_report, write_report, log_filename, set_file. simpl.
  intros [Hw Hname] Hcase Hopen.
  destruct fl as [h|].
  - destruct Hcase as [[=]|Hd]. destruct wr as [t|]; [|by destruct Hw as [? [=]]].
    rewrite decide_True by done. simpl. rewrite Hopen. simpl.
    destruct (Close_err E h); destruct (stat_IsNotExist E _); reflexivity.
  - destruct (decide (ld <> date)); simpl; rewrite Hopen; simpl; destruct wr;
      destruct (stat_IsNotExist E _); reflexivity.
Qed.

(** A write to the file that is open for the date. *)
Lemma FileDevice_Write_staying date f p h t :
  file f = Some h -> writer f = Some t -> lastdate f = date ->
  FileDevice_Write E date f p = Some (f, [BufWrite t p] ++ write_report E t p).
Proof.
  destruct f as [fl wr pfx ld]. simpl. intros -> -> ->.
  unfold FileDevice_Write, FileDevice_Write_tail, write_report. simpl.
  rewrite decide_False by (intros H; by apply H). reflexivity.
Qed.

Lemma opened_app tr1 tr2 : opened (tr1 ++ tr2) = opened tr1 ++ opened tr2.
Proof. apply omap_app. Qed.
Lemma closed_app tr1 tr2 : closed (tr1 ++ tr2) = closed tr1 ++ closed tr2.
Proof. apply omap_app. Qed.
Lemma buffered_app tr1 tr2 : buffered (tr1 ++ tr2) = buffered tr1 ++ buffered tr2.
Proof. apply omap_app. Qed.

Lemma write_report_silent t p :
  opened (write_report E t p) = [] /\ closed (write_report E t p) = [] /\
  buffered (write_report E t p) = [].
Proof. unfold write_report. by destruct (Write_err E t p). Qed.

Lemma before_open_silent f name :
  (is_Some (file f) -> is_Some (writer f)) ->
  opened (before_open E f name) = [] /\ buffered (before_open E f name) = [] /\
  closed (before_open E f name) = option_list (file f).
Proof.
  intros Hw. unfold before_open, close_report.
  destruct (file f) as [h|]; [destruct (writer f) as [t|]; [|by destruct Hw as [? [=]]]|].
  - destruct (Close_err E h); by destruct (stat_IsNotExist E (path_Dir E name)).
  - by destruct (stat_IsNotExist E (path_Dir E name)).
Qed.

(** Writes on one date to a device that has the file of that date open. *)
Lemma FileDevice_Writes_staying date f ps h t :
  file f = Some h -> writer f = Some t -> lastdate f = date ->
  exists tr, FileDevice_Writes E f (map (fun p => (date, p)) ps) = Some (f, tr) /\
    opened tr = [] /\ closed tr = [] /\ buffered tr = map (fun p => (t, p)) ps.
Proof.
  intros Hf Hw Hd. induction ps as [|p ps (tr & IH & Ho & Hc & Hb)]; simpl.
  - by exists [].
  - rewrite (FileDevice_Write_staying date f p h t Hf Hw Hd). simpl. rewrite IH. simpl.
    eexists. split; [reflexivity|].
    destruct (write_report_silent t p) as (Ho' & Hc' & Hb').
    unfold opened, closed, buffered in *. simpl.
    rewrite !omap_app, Ho, Hc, Hb, Ho', Hc', Hb'. done.
Qed.

(** Writes on one date to a device that has no file for that date yet. *)
Lemma FileDevice_Writes_day date f p ps :
  file_ok f -> (file f = None \/ lastdate f <> date) ->
  OpenFile_err E (log_filename (prefix f) date) = None ->
  exists f' tr,
    FileDevice_Writes E f (map (fun p => (date, p)) (p :: ps)) = Some (f', tr) /\
    f' = mkFileDevice (Some (log_filename (prefix f) date))
                      (Some (ToFile (log_filename (prefix f) date))) (prefix f) date /\
    opened tr = [log_filename (prefix f) date] /\
    closed tr = option_list (file f) /\
    buffered tr = map (fun p => (ToFile (log_filename (prefix f) date), p)) (p :: ps).
Proof.
  intros Hok Hcase Hopen. simpl.
  rewrite (FileDevice_Write_opening date f p Hok Hcase Hopen). simpl.
  destruct (FileDevice_Writes_staying date
              (mkFileDevice (Some (log_filename (prefix f) date))
                 (Some (ToFile (log_filename (prefix f) date))) (prefix f) date)
              ps _ _ eq_refl eq_refl eq_refl) as (tr & -> & Ho & Hc & Hb).
  simpl. eexists _, _. split; [reflexivity|]. split; [done|].
  destruct (before_open_silent f (log_filename (prefix f) date) (proj1 Hok))
    as (Ho' & Hb' & Hc').
  destruct (write_report_silent (ToFile (log_filename (prefix f) date)) p)
    as (Ho'' & Hc'' & Hb'').
  unfold opened, closed, buffered in *. rewrite !omap_app. simpl.
  rewrite ?omap_app, ?Ho, ?Hc, ?Hb, ?Ho', ?Hc', ?Hb', ?Ho'', ?Hc'', ?Hb''. simpl.
  unfold write_report. destruct (Write_err E _ p); simpl; by rewrite ?app_nil_r.
Qed.

Lemma FileDevice_Writes_app f s1 s2 :
  FileDevice_Writes E f (s1 ++ s2) =
  '(f1, tr1) ← FileDevice_Writes E f s1;
  '(f2, tr2) ← FileDevice_Writes E f1 s2;
  Some (f2, tr1 ++ tr2).
Proof.
  revert f. induction s1 as [|[d p] s1 IH]; intros f; simpl.
  - destruct (FileDevice_Writes E f s2) as [[f2 tr2]|]; done.
  - destruct (FileDevice_Write E d f p) as [[f1 tr1]|]; [|done]. simpl.
    rewrite IH. destruct (FileDevice_Writes E f1 s1) as [[f1' tr1']|]; [|done]. simpl.
    destruct (FileDevice_Writes E f1' s2) as [[f2 tr2]|]; [|done]. simpl.
    by rewrite app_assoc.
Qed.

End FileFacts.

(** X13. A new file device written to on one day and then on another,
    every file opening without error: the first write of a day opens the
    file named after that day, the later ones of the day go to it without
    another opening, and the first write of the second day closes the
    first file before it opens the second. So two files are opened, with
    different names, one is closed, and every message is written once, to
    the file of its day, in the order of the calls. *)
Theorem file_device_two_days (E : Env) (pfx : string) (d1 d2 : Z)
    (p1 : bytes) (ps1 : list bytes) (p2 : bytes) (ps2 : list bytes) :
  d1 <> d2 ->
  OpenFile_err E (log_filename pfx d1) = None ->
  OpenFile_err E (log_filename pfx d2) = None ->
  let f0 := mkFileDevice None None pfx 0 in
  let day1 := map (fun p => (d1, p)) (p1 :: ps1) in
  let day2 := map (fun p => (d2, p)) (p2 :: ps2) in
  createFileDevice pfx = File f0 /\
  (exists f1 tr1, FileDevice_Writes E f0 day1 = Some (f1, tr1) /\
     opened tr1 = [log_filename pfx d1] /\ closed tr1 = [] /\
     buffered tr1 = map (fun p => (ToFile (log_filename pfx d1), p)) (p1 :: ps1)) /\
  (exists f2 tr, FileDevice_Writes E f0 (day1 ++ day2) = Some (f2, tr) /\
     opened tr = [log_filename pfx d1; log_filename pfx d2] /\
     closed tr = [log_filename pfx d1] /\
     buffered tr = map (fun p => (ToFile (log_filename pfx d1), p)) (p1 :: ps1) ++
                   map (fun p => (ToFile (log_filename pfx d2), p)) (p2 :: ps2) /\
     file f2 = Some (log_filename pfx d2) /\
     log_filename pfx d1 <> log_filename pfx d2).
Proof.
  intros Hne Ho1 Ho2 f0 day1 day2. split; [done|].
  assert (Hok0 : file_ok f0) by (split; [by intros [? [=]]|discriminate]).
  destruct (FileDevice_Writes_day E d1 f0 p1 ps1 Hok0 (or_introl eq_refl) Ho1)
    as (f1 & tr1 & Hrun1 & Hf1 & Hop1 & Hcl1 & Hbf1).
  split; [by exists f1, tr1|].
  assert (Hok1 : file_ok f1).
  { rewrite Hf1. split; [by eexists|]. by intros h [= <-]. }
  assert (Hp1 : prefix f1 = pfx) by (by rewrite Hf1).
  destruct (FileDevice_Writes_day E d2 f1 p2 ps2 Hok1)
    as (f2 & tr2 & Hrun2 & Hf2 & Hop2 & Hcl2 & Hbf2).
  { right. rewrite Hf1. simpl. done. }
  { by rewrite Hp1. }
  exists f2, (tr1 ++ tr2). rewrite FileDevice_Writes_app.
  unfold day1, day2. rewrite Hrun1. unfold mbind, option_bind. cbv beta iota.
  rewrite Hrun2. split; [done|].
  rewrite opened_app, closed_app, buffered_app, Hop1, Hcl1, Hbf1, Hop2, Hcl2, Hbf2, Hp1.
  rewrite Hf1 at 1. simpl. repeat (split; [done|]).
  split; [by rewrite Hf2, Hp1|]. intros H. by apply log_filename_inj in H.
Qed.

Lemma file_device_two_days_witness :
  exists f2 tr,
    FileDevice_Writes env0 (mkFileDevice None None "/var/log/app" 0)
      (map (fun p => (90105, p)) [[]; []] ++ map (fun p => (90106, p)) [[]])
      = Some (f2, tr) /\
    opened tr = [log_filename "/var/log/app" 90105; log_filename "/var/log/app" 90106] /\
    closed tr = [log_filename "/var/log/app" 90105] /\
    buffered tr =
      map (fun p => (ToFile (log_filename "/var/log/app" 90105), p)) [[]; []] ++
      map (fun p => (ToFile (log_filename "/var/log/app" 90106), p)) [[]] /\
    file f2 = Some (log_filename "/var/log/app" 90106) /\
    log_filename "/var/log/app" 90105 <> log_filename "/var/log/app" 90106.
Proof.
  destruct (file_device_two_days env0 "/var/log/app" 90105 90106 [] [[]] [] [])
    as (_ & _ & H); [lia|reflexivity|reflexivity|exact H].
Defined.

(** X14. A write that has to open the file (none is open, or the date
    has changed) and cannot: the error is printed, nothing is written to
    any buffer, so the message is lost, and the device is left without a
    file but, after a change of date, still with the buffered writer of
    the file it has just closed, which [Flush] will flush. Since no file
    is open, the next write tries to open the file again, and when that
    succeeds it writes its message there. *)
Theorem open_failure_drops_message (E E' : Env) (date : Z) (f : FileDevice)
    (p q : bytes) (e : string) :
  file_ok f -> (file f = None \/ lastdate f <> date) ->
  OpenFile_err E (log_filename (prefix f) date) = Some e ->
  exists f' tr,
    FileDevice_Write E date f p = Some (f', tr) /\
    buffered tr = [] /\
    opened tr = [log_filename (prefix f) date] /\
    closed tr = option_list (file f) /\
    last tr = Some (Printf ("ERROR: logger cannot open file: " +:+ e +:+ "
")) /\
    file f' = None /\ writer f' = writer f /\ prefix f' = prefix f /\
    lastdate f' = lastdate f /\
    FileDevice_Flush f' = FileDevice_Flush f /\
    (OpenFile_err E' (log_filename (prefix f) date) = None ->
     exists f'' tr',
       FileDevice_Write E' date f' q = Some (f'', tr') /\
       opened tr' = [log_filename (prefix f) date] /\ closed tr' = [] /\
       buffered tr' = [(ToFile (log_filename (prefix f) date), q)] /\
       file f'' = Some (log_filename (prefix f) date)).
Proof.
  intros Hok Hcase Hopen. exists (set_file None f). eexists.
  split; [by apply FileDevice_Write_failing|].
  destruct (before_open_silent E f (log_filename (prefix f) date) (proj1 Hok))
    as (Ho & Hb & Hc).
  rewrite opened_app, closed_app, buffered_app, Ho, Hb, Hc.
  split; [done|]. split; [done|]. split; [by rewrite app_nil_r|].
  split.
  { by rewrite last_app. }
  repeat (split; [done|]).
  intros Hopen'.
  assert (Hok' : file_ok (set_file None f)) by (split; [by intros [? [=]]|discriminate]).
  pose proof (FileDevice_Write_opening E' date (set_file None f) q Hok'
                (or_introl eq_refl) Hopen') as Hrun.
  eexists _, _. split; [exact Hrun|].
  destruct (before_open_silent E' (set_file None f) (log_filename (prefix f) date)
              (proj1 Hok')) as (Ho' & Hb' & Hc').
  destruct (write_report_silent E' (ToFile (log_filename (prefix f) date)) q)
    as (Ho'' & Hc'' & Hb'').
  simpl prefix. rewrite !opened_app, !closed_app, !buffered_app, Ho', Hb', Hc'.
  unfold write_report in *.
  destruct (Write_err E' (ToFile (log_filename (prefix f) date)) q); done.
Qed.

Lemma open_failure_drops_message_witness :
  exists f' tr,
    FileDevice_Write
      (mkEnv string (fun f _ => f) (fun p => p) (mkFormatter (fun _ _ _ => []))
             (fun _ => false) (fun _ => Some "permission denied") (fun _ => None)
             (fun _ _ => None))
      90105 (mkFileDevice None None "/var/log/app" 0) [] = Some (f', tr) /\
    buffered tr = [] /\ file f' = None.
Proof.
  destruct (open_failure_drops_message
              (mkEnv string (fun f _ => f) (fun p => p) (mkFormatter (fun _ _ _ => []))
                     (fun _ => false) (fun _ => Some "permission denied")
                     (fun _ => None) (fun _ _ => None))
              env0 90105 (mkFileDevice None None "/var/log/app" 0) [] []
              "permission denied")
    as (f' & tr & Hrun & Hb & _ & _ & _ & Hf & _).
  - split; [by intros [? [=]]|discriminate].
  - left. reflexivity.
  - reflexivity.
  - exists f', tr. split; [exact Hrun|]. split; [exact Hb|exact Hf].
Defined.

(** ** The cached clock *)

(** X15. The two integers [updateNow] caches keep the fields apart: the
    date divided by 10000 is the year within its century, the next two
    decimal places are the month and the last two the day, and the time
    holds hour, minute and second in the same way. Hence two instants get
    the same date exactly when they agree on day, month and the last two
    digits of the year; the century is not kept. Nothing but the two
    integers changes. *)
Theorem updateNow_decode (t : Time) (w : World) :
  valid_clock t ->
  let w' := res_world (updateNow t w) in
  lastDate w' / 10000 = Year t mod 100 /\
  lastDate w' / 100 mod 100 = Month t /\
  lastDate w' mod 100 = Day t /\
  lastTime w' / 10000 = Hour t /\
  lastTime w' / 100 mod 100 = Minute t /\
  lastTime w' mod 100 = Second t /\
  same_store w w' /\ calls w' = calls w /\ os w' = os w /\
  (forall t2 w2, valid_clock t2 ->
     (lastDate (res_world (updateNow t2 w2)) = lastDate w' <->
      Year t2 mod 100 = Year t mod 100 /\ Month t2 = Month t /\ Day t2 = Day t)).
Proof.
  intros ((Hy & Hm & Hd) & Hh & Hmi & Hs). simpl.
  assert (Hdate : forall t0, valid_time t0 ->
            uint32 (Z.rem (Year t0) 100 * 10000 + Month t0 * 100 + Day t0)
            = (Year t0 mod 100) * 10000 + Month t0 * 100 + Day t0).
  { intros t0 Ht0. apply (updateNow_lastDate t0 w Ht0). }
  rewrite Hdate by done.
  assert (Htime : uint32 (Hour t * 10000 + Minute t * 100 + Second t)
                  = Hour t * 10000 + Minute t * 100 + Second t).
  { unfold uint32. apply Z.mod_small. lia. }
  rewrite Htime.
  pose proof (Z.mod_pos_bound (Year t) 100 ltac:(lia)) as Hyy.
  assert (Hdec : forall a b c, 0 <= a -> 0 <= b < 100 -> 0 <= c < 100 ->
            (a * 10000 + b * 100 + c) / 10000 = a /\
            (a * 10000 + b * 100 + c) / 100 mod 100 = b /\
            (a * 10000 + b * 100 + c) mod 100 = c).
  { intros a b c Ha Hb Hc.
    assert (H1 : (a * 10000 + b * 100 + c) / 100 = a * 100 + b).
    { symmetry. apply (Z.div_unique _ 100 _ c); lia. }
    split; [|split].
    - symmetry. apply (Z.div_unique _ 10000 _ (b * 100 + c)); lia.
    - rewrite H1. symmetry. apply (Z.mod_unique _ 100 a b); lia.
    - symmetry. apply (Z.mod_unique _ 100 (a * 100 + b) c); lia. }
  destruct (Hdec (Year t mod 100) (Month t) (Day t)) as (D1 & D2 & D3); [lia..|].
  destruct (Hdec (Hour t) (Minute t) (Second t)) as (T1 & T2 & T3); [lia..|].
  repeat (split; [done|]).
  intros t2 w2 ((Hy2 & Hm2 & Hd2) & _). rewrite Hdate by done.
  pose proof (Z.mod_pos_bound (Year t2) 100 ltac:(lia)) as Hyy2.
  destruct (Hdec (Year t2 mod 100) (Month t2) (Day t2)) as (E1 & E2 & E3); [lia..|].
  split.
  - intros Heq. rewrite Heq in E1, E2, E3. lia.
  - intros (-> & -> & ->). done.
Qed.

Lemma updateNow_decode_witness :
  lastDate (res_world (updateNow (mkTime 2009 1 5 13 7 9) world0)) / 10000 = 2009 mod 100 /\
  lastDate (res_world (updateNow (mkTime 1909 1 5 0 0 0) world0))
    = lastDate (res_world (updateNow (mkTime 2009 1 5 13 7 9) world0)).
Proof.
  assert (Hv : forall y h m s, 0 <= y -> 0 <= h < 24 -> 0 <= m < 60 -> 0 <= s < 60 ->
                 valid_clock (mkTime y 1 5 h m s)).
  { intros. unfold valid_clock, valid_time. simpl. lia. }
  destruct (updateNow_decode (mkTime 2009 1 5 13 7 9) world0) as (H1 & _ & _ & _ & _ & _ & _ & _ & _ & H);
    [apply Hv; lia|].
  split; [exact H1|].
  apply (H (mkTime 1909 1 5 0 0 0) world0); [apply Hv; lia|]. simpl. done.
Defined.

(** ** What [Logger.Write] hands to the system *)

Section Output.
Variable E : Env.

Lemma DeviceObj_Write_events date dev p dev' tr :
  writer_over_file dev -> DeviceObj_Write E date dev p = Some (dev', tr) ->
  writer_over_file dev' /\
  Forall (fun c => carries p c /\ c <> BufFlush ToStdout) tr.
Proof.
  destruct dev as [f| |]; simpl.
  3: { intros _ [= <- <-]. split; [done|]. by repeat constructor. }
  2: { intros _ [= <- <-]. split; [done|]. by repeat constructor. }
  intros Hw. destruct f as [fl wr pfx ld]. simpl in Hw.
  unfold FileDevice_Write, FileDevice_Write_tail. simpl.
  destruct fl as [h|]; destruct wr as [t|];
    try (destruct (Hw t eq_refl) as [h' ->]);
    destruct (decide (ld <> date)); simpl;
    repeat match goal with
    | |- context [Close_err E ?x] => destruct (Close_err E x)
    | |- context [stat_IsNotExist E ?x] => destruct (stat_IsNotExist E x)
    | |- context [OpenFile_err E ?x] => destruct (OpenFile_err E x)
    | |- context [Write_err E ?x ?y] => destruct (Write_err E x y)
    end; simpl; try discriminate; intros [= <- <-]; simpl.
  all: split; [intros t' [= <-]; by eexists || (intros ? [=]) |].
  all: repeat constructor; simpl; try done.
Qed.

Lemma offer_loop_os P lv b ws w :
  (forall date dev dev' tr, P dev -> DeviceObj_Write E date dev b = Some (dev', tr) ->
     P dev' /\ Forall (fun c => carries b c /\ c <> BufFlush ToStdout) tr) ->
  Forall P (devices w) ->
  let w' := res_world (forRange ws (offer E lv b) w) in
  Forall P (devices w') /\
  exists tr, os w' = os w ++ tr /\
    Forall (fun c => carries b c /\ c <> BufFlush ToStdout) tr.
Proof.
  intros HP. revert w. induction ws as [|wr ws IH]; intros w Hdev; simpl.
  - split; [done|]. exists []. by rewrite app_nil_r.
  - unfold mbind, M_bind.
    assert (H1 : let w1 := res_world (offer E lv b wr w) in
              Forall P (devices w1) /\
              exists tr, os w1 = os w ++ tr /\
                Forall (fun c => carries b c /\ c <> BufFlush ToStdout) tr).
    { unfold offer. destruct (lv >=? level wr).
      2: { simpl. split; [done|]. exists []. by rewrite app_nil_r. }
      unfold mbind, M_bind, call, modify, Device_Write. simpl.
      destruct (devices w !! device wr) as [dev|] eqn:Hd.
      2: { simpl. split; [done|]. exists []. by rewrite app_nil_r. }
      destruct (DeviceObj_Write E (lastDate w) dev b) as [[dev' tr]|] eqn:Hrun.
      2: { simpl. split; [done|]. exists []. by rewrite app_nil_r. }
      destruct (HP _ _ _ _ (Forall_lookup_1 _ _ _ _ Hdev Hd) Hrun) as [HP' Htr].
      simpl. split; [by apply Forall_insert|]. by exists tr. }
    destruct (offer E lv b wr w) as [[] w1|pk w1]; simpl in *; [|done].
    destruct H1 as (Hdev1 & tr1 & Hos1 & Htr1).
    destruct (IH w1 Hdev1) as (Hdev2 & tr2 & Hos2 & Htr2).
    split; [done|]. exists (tr1 ++ tr2).
    rewrite Hos2, Hos1, app_assoc. split; [done|]. by apply Forall_app.
Qed.

Lemma Write_os P amb l lv fmt a w :
  (forall b date dev dev' tr, P dev -> DeviceObj_Write E date dev b = Some (dev', tr) ->
     P dev' /\ Forall (fun c => carries b c /\ c <> BufFlush ToStdout) tr) ->
  Forall P (devices w) ->
  let w' := res_world (Write E amb l lv fmt a w) in
  Forall P (devices w') /\
  exists tr, os w' = os w ++ tr /\
    Forall (fun c => c <> BufFlush ToStdout) tr /\
    forall log, loggers w !! l = Some log ->
      Forall (carries (Format (format log) amb lv (rendered E fmt a))) tr.
Proof.
  intros HP Hdev.
  assert (Hnil : Forall P (devices w) /\
    exists tr, os w = os w ++ tr /\ Forall (fun c => c <> BufFlush ToStdout) tr /\
      forall log, loggers w !! l = Some log ->
        Forall (carries (Format (format log) amb lv (rendered E fmt a))) tr).
  { split; [done|]. exists []. rewrite app_nil_r. by repeat split. }
  destruct (loggers w !! l) as [log|] eqn:Hl.
  2: { unfold Write, mbind, M_bind, load_logger. by rewrite Hl. }
  rewrite (Write_unfold E _ _ _ _ _ _ _ Hl).
  destruct (lv <? minLevel log); [done|].
  pose proof (offer_loop_os P lv (Format (format log) amb lv (rendered E fmt a))
                (writers log) (add_call (CFormat lv (rendered E fmt a)) w)
                (HP _) Hdev) as (Hdev' & tr & Hos & Htr).
  assert (Hres : Forall (fun c => c <> BufFlush ToStdout) tr /\
            forall log0, Some log = Some log0 ->
              Forall (carries (Format (format log0) amb lv (rendered E fmt a))) tr).
  { split; [eapply Forall_impl; [exact Htr|]; by intros c [_ ?]|].
    intros log0 [= <-]. eapply Forall_impl; [exact Htr|]. by intros c [? _]. }
  destruct (forRange _ _ _) as [[] w1|pk w1]; simpl in *;
    (split; [done|]); exists tr; by split.
Qed.

Lemma SetLevel_devices name index lvl w :
  registry_ok w -> devices (res_world (SetLevel name index lvl w)) = devices w.
Proof.
  intros (Hwf & _ & _).
  destruct (loggerMap w !! name) as [l|] eqn:Hn.
  2: { by rewrite SetLevel_unregistered. }
  destruct (Hwf _ _ Hn) as (_ & log & Hl & _).
  destruct (Z.le_gt_cases (Z.of_nat (length (writers log))) index) as [Hi|Hi].
  { by erewrite SetLevel_exceed. }
  destruct (SetLevel_run name index lvl w l log Hn Hl) as
    (v & w1 & _ & _ & (_ & _ & Hd) & _ & ->); [lia|].
  destruct (index =? -1); [done|]. by destruct (0 <=? index).
Qed.

(** A property of devices that new devices have and writes keep holds of
    every device of every world a program reaches. *)
Lemma reachable_devices P w :
  (forall obj, fresh_dev obj -> P obj) ->
  (forall b date dev dev' tr, P dev -> DeviceObj_Write E date dev b = Some (dev', tr) ->
     P dev' /\ Forall (fun c => carries b c /\ c <> BufFlush ToStdout) tr) ->
  reachable E w -> Forall P (devices w).
Proof.
  intros Hfresh HP. 
  assert (Hext : forall w w', extends w w' -> Forall P (devices w) -> Forall P (devices w')).
  { intros w0 w' (_ & _ & ds & -> & Hds) H0. apply Forall_app. split; [done|].
    eapply Forall_impl; [exact Hds|]. exact Hfresh. }
  induction 1 as [w Hrun|cfg w Hr IH|name index lvl w Hr IH|lv dev w Hr IH
                 |fmt ws w Hr IH|l w Hr IH|amb l lv fmt a w Hr IH|l w Hr IH|t w Hr IH].
  - pose proof (Init_extends E [] world0) as He. rewrite Hrun in He.
    eapply Hext; [exact He|]. constructor.
  - eapply Hext; [apply Init_extends|done].
  - rewrite SetLevel_devices; [done|]. by apply (reachable_registry_ok E).
  - assert (H : post (NewWriter lv dev) w (fun _ w' => Forall P (devices w'))
                     (fun w' => Forall P (devices w'))).
    { apply post_NewWriter_fresh; [|done]. intros obj Hobj. simpl.
      apply Forall_app. split; [done|]. apply Forall_singleton. by apply Hfresh. }
    unfold post in H. by destruct (NewWriter lv dev w).
  - done.
  - unfold UpdateLevelAt, mbind, M_bind, load_logger.
    by destruct (loggers w !! l).
  - by apply (Write_os P amb l lv fmt a w HP IH).
  - destruct (Flush_same l w) as (_ & _ & ->). done.
  - done.
Qed.

End Output.

Lemma fresh_writer_over_file obj : fresh_dev obj -> writer_over_file obj.
Proof. intros [->|[->|[args ->]]]; simpl; try done. Qed.



Section Plain.
Variable E : Env.

Lemma offer_loop_plain lv b ws w :
  Forall (plain_device w) ws ->
  exists w', forRange ws (offer E lv b) w = Ok tt w' /\
    devices w' = devices w /\ loggers w' = loggers w /\ loggerMap w' = loggerMap w /\
    os w' = os w ++ map (plain_output w b) (accepting lv ws).
Proof.
  revert w. induction ws as [|wr ws IH]; intros w Hws; simpl.
  - exists w. by rewrite app_nil_r.
  - apply Forall_cons in Hws as [Hwr Hws]. unfold mbind, M_bind, accepting.
    rewrite filter_cons. unfold offer at 1.
    destruct (Z.geb_spec lv (level wr)) as [Hge|Hlt].
    + rewrite decide_True by lia.
      unfold mbind, M_bind, call, modify, Device_Write. simpl.
      assert (Hstep : exists ev,
        match devices w !! device wr with
        | Some dev =>
            match DeviceObj_Write E (lastDate w) dev b with
            | Some (dev', tr) =>
                Ok tt (set_devices (<[device wr := dev']> (devices w))
                         (add_os tr (add_call (CDeviceWrite (device wr) b) w)))
            | None => Panic NilDereference (add_call (CDeviceWrite (device wr) b) w)
            end
        | None => Panic NilDereference (add_call (CDeviceWrite (device wr) b) w)
        end
        = Ok tt (set_devices (devices w)
                   (add_os [ev] (add_call (CDeviceWrite (device wr) b) w))) /\
        ev = plain_output w b wr).
      { unfold plain_output. destruct Hwr as [Hd|Hd]; rewrite Hd; simpl;
          eexists; (split; [|reflexivity]); by rewrite list_insert_id. }
      destruct Hstep as (ev & -> & Hev).
      destruct (IH (set_devices (devices w)
                      (add_os [ev] (add_call (CDeviceWrite (device wr) b) w))))
        as (w' & Hrun & Hd & Hl & Hm & Hos); [done|].
      exists w'. split; [exact Hrun|]. simpl in *.
      rewrite Hos, <- app_assoc, Hev. done.
    + rewrite decide_False by lia. simpl. by apply IH.
Qed.

Lemma Write_plain amb l lv fmt a w log :
  loggers w !! l = Some log -> Forall (plain_device w) (writers log) ->
  exists w', Write E amb l lv fmt a w = Ok tt w' /\
    devices w' = devices w /\ loggers w' = loggers w /\ loggerMap w' = loggerMap w /\
    os w' = os w ++
      if lv <? minLevel log then []
      else map (plain_output w (Format (format log) amb lv (rendered E fmt a)))
               (accepting lv (writers log)).
Proof.
  intros Hl Hws. rewrite (Write_unfold E _ _ _ _ _ _ _ Hl).
  destruct (lv <? minLevel log).
  - exists w. by rewrite app_nil_r.
  - destruct (offer_loop_plain lv (Format (format log) amb lv (rendered E fmt a))
                (writers log) (add_call (CFormat lv (rendered E fmt a)) w) Hws)
      as (w1 & -> & Hd & Hlg & Hm & Hos).
    eexists. split; [reflexivity|]. simpl. done.
Qed.

End Plain.





(** ** More on the file device *)

(** X19. When the date has changed since a file device opened its file,
    the next write first flushes the buffered writer of the old file and
    closes the old file, then looks up the directory and opens the file
    of the new date; an error of the close is printed and changes
    nothing of this. The message goes to the new file when it could be
    opened and is lost otherwise. *)
Theorem rotation_order (E : Env) (date : Z) (f : FileDevice) (p : bytes)
    (h : string) (t : Target) :
  file_ok f -> file f = Some h -> writer f = Some t -> lastdate f <> date ->
  exists f' rest,
    FileDevice_Write E date f p =
      Some (f', [BufFlush t; OsClose h] ++ close_report E h ++
                [OsStat (path_Dir E (log_filename (prefix f) date))] ++
                (if stat_IsNotExist E (path_Dir E (log_filename (prefix f) date))
                 then [OsMkdirAll (path_Dir E (log_filename (prefix f) date))] else []) ++
                [OsOpenFile (log_filename (prefix f) date)] ++ rest) /\
    match OpenFile_err E (log_filename (prefix f) date) with
    | None =>
        file f' = Some (log_filename (prefix f) date) /\ lastdate f' = date /\
        rest = [BufWrite (ToFile (log_filename (prefix f) date)) p] ++
               write_report E (ToFile (log_filename (prefix f) date)) p
    | Some e =>
        file f' = None /\ lastdate f' = lastdate f /\
        rest = [Printf ("ERROR: logger cannot open file: " +:+ e +:+ "
")]
    end.
Proof.
  intros Hok Hf Hw Hd.
  destruct (OpenFile_err E (log_filename (prefix f) date)) as [e|] eqn:Hopen.
  - rewrite (FileDevice_Write_failing E date f p e Hok (or_intror Hd) Hopen).
    eexists _, _. split.
    + unfold before_open. rewrite Hf, Hw. rewrite <- !app_assoc. reflexivity.
    + unfold set_file. simpl. done.
  - rewrite (FileDevice_Write_opening E date f p Hok (or_intror Hd) Hopen).
    eexists _, _. split.
    + unfold before_open. rewrite Hf, Hw. rewrite <- !app_assoc. reflexivity.
    + done.
Qed.

Lemma rotation_order_witness :
  exists f' rest,
    FileDevice_Write env0 90106
      (mkFileDevice (Some "/var/log/app-90105.log") (Some (ToFile "/var/log/app-90105.log"))
                    "/var/log/app" 90105) [] =
      Some (f', [BufFlush (ToFile "/var/log/app-90105.log");
                 OsClose "/var/log/app-90105.log"] ++
                close_report env0 "/var/log/app-90105.log" ++
                [OsStat "/var/log/app-90106.log"] ++ [] ++
                [OsOpenFile "/var/log/app-90106.log"] ++ rest) /\
    file f' = Some "/var/log/app-90106.log" /\ lastdate f' = 90106 /\
    rest = [BufWrite (ToFile "/var/log/app-90106.log") []] ++
           write_report env0 (ToFile "/var/log/app-90106.log") [].
Proof.
  apply (rotation_order env0 90106
           (mkFileDevice (Some "/var/log/app-90105.log")
              (Some (ToFile "/var/log/app-90105.log")) "/var/log/app" 90105) []
           "/var/log/app-90105.log" (ToFile "/var/log/app-90105.log")).
  - split; [by eexists|]. intros h' [= <-]. reflexivity.
  - reflexivity.
  - reflexivity.
  - simpl. lia.
Defined.

(** ** The cached level and the dispatch *)

Lemma min_threshold_spec ws :
  ws <> [] ->
  (forall wr, wr ∈ ws -> min_threshold ws <= level wr) /\
  (exists wr, wr ∈ ws /\ level wr = min_threshold ws).
Proof.
  destruct ws as [|w0 ws]; [done|]. intros _. simpl.
  revert w0. induction ws as [|w1 ws IH]; intros w0; simpl.
  - split; [by intros wr ->%list_elem_of_singleton|].
    exists w0. split; [apply list_elem_of_here|done].
  - destruct (Z.min_spec (level w0) (level w1)) as [[Hlt Hmin]|[Hge Hmin]].
    + destruct (IH w0) as [Hle [wr [Hin Heq]]]. rewrite Hmin. split.
      * intros wr' Hin'. apply elem_of_cons in Hin' as [->|Hin'].
        -- apply Hle, list_elem_of_here.
        -- apply elem_of_cons in Hin' as [->|Hin'].
           ++ pose proof (Hle w0 (list_elem_of_here _ _)). lia.
           ++ by apply Hle, list_elem_of_further.
      * exists wr. split; [|done]. apply elem_of_cons in Hin as [->|Hin].
        -- apply list_elem_of_here.
        -- by apply list_elem_of_further, list_elem_of_further.
    + destruct (IH w1) as [Hle [wr [Hin Heq]]]. rewrite Hmin. split.
      * intros wr' Hin'. apply elem_of_cons in Hin' as [->|Hin'].
        -- pose proof (Hle w1 (list_elem_of_here _ _)). lia.
        -- by apply Hle.
      * exists wr. split; [|done]. by apply list_elem_of_further.
Qed.

Lemma accepting_nil_iff lv ws :
  accepting lv ws = [] <-> forall wr, wr ∈ ws -> lv < level wr.
Proof.
  unfold accepting. split.
  - intros Hnil wr Hin. destruct (Z.lt_ge_cases lv (level wr)) as [|Hge]; [done|].
    assert (Hacc : wr ∈ filter (fun wr => level wr <= lv) ws).
    { apply list_elem_of_filter. split; [lia|done]. }
    rewrite Hnil in Hacc. by apply elem_of_nil in Hacc.
  - intros Hall. induction ws as [|w0 ws IH]; [done|].
    rewrite filter_cons, decide_False.
    + apply IH. intros wr Hin. by apply Hall, list_elem_of_further.
    + pose proof (Hall w0 (list_elem_of_here _ _)). lia.
Qed.

(** X20. The cached level never holds back a message that a writer
    would take: after [UpdateLevel], a level below the cached one is
    below the threshold of every writer. For the loggers of the registry,
    in every world a program reaches, the cached level is exact: a level
    is below it exactly when no writer takes the message, so [Write]
    formats a message only when some writer will get it. *)
Theorem cached_level_exact (E : Env) (w : World) (name : string) (l : nat) (lv : Z) :
  reachable E w -> loggerMap w !! name = Some l ->
  (forall log, lv < minLevel (UpdateLevel log) -> accepting lv (writers log) = []) /\
  exists log, loggers w !! l = Some log /\
    (lv < minLevel log <-> accepting lv (writers log) = []) /\
    (forall amb fmt a, dispatch E amb log lv fmt a = [] <-> accepting lv (writers log) = []).
Proof.
  intros Hr Hn. split.
  - intros log Hlt. apply accepting_nil_iff. intros wr Hin.
    rewrite UpdateLevel_minLevel in Hlt.
    destruct (writers log) as [|w0 ws] eqn:Hws; [by apply elem_of_nil in Hin|].
    destruct (min_threshold_spec (w0 :: ws)) as [Hle _]; [done|].
    specialize (Hle wr Hin). lia.
  - apply reachable_registry_ok in Hr as (Hwf & _ & _).
    destruct (Hwf _ _ Hn) as (_ & log & Hl & Hne & Hws & Hmin).
    exists log. split; [done|].
    destruct (min_threshold_spec (writers log) Hne) as [Hle [wm [Hin Heq]]].
    assert (Hex : lv < minLevel log <-> accepting lv (writers log) = []).
    { rewrite accepting_nil_iff, Hmin. split.
      - intros Hlt wr Hwr. specialize (Hle wr Hwr). lia.
      - intros Hall. specialize (Hall wm Hin). lia. }
    split; [done|]. intros amb fmt a. unfold dispatch.
    destruct (Z.ltb_spec lv (minLevel log)) as [Hlt|Hge].
    + split; [intros _; by apply Hex|done].
    + split; [discriminate|]. intros Hnil. apply Hex in Hnil. lia.
Qed.

Lemma cached_level_exact_witness :
  exists log, loggers world_app !! 1%nat = Some log /\
    (INFO < minLevel log <-> accepting INFO (writers log) = []).
Proof.
  destruct (cached_level_exact env0 world_app "app" 1%nat INFO)
    as (_ & log & Hl & Hex & _).
  - exact reachable_world_app.
  - vm_compute. reflexivity.
  - exists log. split; [exact Hl|exact Hex].
Defined.

(** ** A logger without writers *)


(** ** The background worker *)

Section Tick.
Variable E : Env.

Lemma Flush_range order w :
  (forall l, l ∈ order -> exists log, loggers w !! l = Some log /\
     Forall (fun wr => (device wr < length (devices w))%nat) (writers log)) ->
  exists w', forRange order Flush w = Ok tt w' /\
    same_store w w' /\ lastDate w' = lastDate w /\ lastTime w' = lastTime w /\
    calls w' = calls w ++
      flat_map (fun l => map (fun wr => CDeviceFlush (device wr))
                             (from_option writers [] (loggers w !! l))) order /\
    (reachable E w -> reachable E w').
Proof.
  revert w. induction order as [|l order IH]; intros w Hall; simpl.
  - exists w. by rewrite app_nil_r.
  - destruct (Hall l (list_elem_of_here _ _)) as (log & Hl & Hws).
    destruct (Flush_run l w log Hl Hws) as (w1 & Hrun & Hs & Hd & Ht & Hc & _).
    pose proof Hs as (Hm1 & Hl1 & Hd1).
    destruct (IH w1) as (w' & Hrun' & Hs' & Hd' & Ht' & Hc' & Hr').
    { intros l' Hin. rewrite Hl1, Hd1. by apply Hall, list_elem_of_further. }
    exists w'. unfold mbind, M_bind. rewrite Hrun. split; [exact Hrun'|].
    split; [by eapply same_store_trans|]. split; [congruence|]. split; [congruence|].
    split.
    + rewrite Hc', Hc, Hl1, Hl, <- app_assoc. done.
    + intros Hr. apply Hr'. pose proof (reach_Flush E l w Hr) as Hr1.
      by rewrite Hrun in Hr1.
Qed.

End Tick.

(** X22. A tick of the background worker, in a world that a program
    reaches: [updateNow] sets the clock, and [Flush] is called on every
    device of every logger of the registry, in whatever order the map
    yields the loggers. The tick does not panic, leaves the registry, the
    loggers and the devices as they are, and the world after it is again
    one that a program reaches. *)
Theorem bgWorker_tick_flushes (E : Env) (t : Time) (order : list nat) (w : World) :
  reachable E w ->
  order ≡ₚ (map_to_list (loggerMap w)).*2 ->
  exists w', bgWorker_tick t order w = Ok tt w' /\
    same_store w w' /\ reachable E w' /\
    lastDate w' = lastDate (res_world (updateNow t w)) /\
    lastTime w' = lastTime (res_world (updateNow t w)) /\
    calls w' = calls w ++
      flat_map (fun l => map (fun wr => CDeviceFlush (device wr))
                             (from_option writers [] (loggers w !! l))) order.
Proof.
  intros Hr Hperm. unfold bgWorker_tick, mbind, M_bind.
  set (w0 := res_world (updateNow t w)).
  assert (Hrun0 : updateNow t w = Ok tt w0) by reflexivity.
  rewrite Hrun0.
  assert (Hs0 : same_store w w0) by done.
  assert (Hc0 : calls w0 = calls w) by done.
  assert (Hr0 : reachable E w0) by (by apply reach_updateNow).
  pose proof Hs0 as (Hm0 & Hl0 & Hd0).
  pose proof (reachable_registry_ok E w Hr) as (Hwf & _ & _).
  clearbody w0.
  destruct (Flush_range E order w0) as (w' & Hrun & Hs & Hd & Ht & Hc & Hr').
  { intros l Hin. rewrite Hperm in Hin.
    apply list_elem_of_fmap in Hin as [[name l'] [-> Hin]].
    apply elem_of_map_to_list in Hin. simpl.
    destruct (Hwf _ _ Hin) as (_ & log & Hl & _ & Hws & _).
    exists log. rewrite Hl0, Hd0. split; [done|].
    eapply Forall_impl; [exact Hws|]. by intros wr [? _]. }
  exists w'. split; [exact Hrun|]. split; [by eapply same_store_trans|].
  split; [by apply Hr'|]. split; [done|]. split; [done|].
  by rewrite Hc, Hc0, Hl0.
Qed.

Lemma bgWorker_tick_flushes_witness :
  exists w', bgWorker_tick (mkTime 2009 1 5 13 7 9)
               (map_to_list (loggerMap world_app)).*2 world_app = Ok tt w' /\
    same_store world_app w' /\ reachable env0 w' /\ lastDate w' = 90105.
Proof.
  destruct (bgWorker_tick_flushes env0 (mkTime 2009 1 5 13 7 9)
              (map_to_list (loggerMap world_app)).*2 world_app)
    as (w' & Hrun & Hs & Hr & Hd & _).
  - exact reachable_world_app.
  - reflexivity.
  - exists w'. split; [exact Hrun|]. split; [exact Hs|]. split; [exact Hr|].
    rewrite Hd. vm_compute. reflexivity.
Defined.
